(** * memorydb: the transactional key-value store of store.go

    A shallow embedding of [Store] and of its methods, and of the GET
    handler of the line interpreter, followed by the properties of the
    store: lookup, counting, and the transaction life cycle. *)

From stdpp Require Import gmap strings list fin_maps fin_sets pretty.
From Stdlib Require Import ZArith Lia Ascii.

#[local] Set Warnings "-clear-no-such-hyp".

Local Open Scope Z_scope.

(** ** Go's [int] *)

(** [int] is a 64-bit two's complement integer on the platforms the
    program is built for; [+=] and [-=] wrap around silently. *)
Definition int_bits : Z := 64.
Definition int_min : Z := - 2 ^ (int_bits - 1).
Definition int_max : Z := 2 ^ (int_bits - 1) - 1.

Definition wrap (z : Z) : Z :=
  (z - int_min) mod 2 ^ int_bits + int_min.

Definition in_range (z : Z) : Prop := int_min <= z <= int_max.

#[global] Instance in_range_dec z : Decision (in_range z).
Proof. unfold in_range. apply _. Defined.

(** ** Errors *)

Inductive error : Set :=
  | ERR_KEY_NOT_EXIST
  | ERR_NOT_TRANSACTION.

#[global] Instance error_eq_dec : EqDecision error.
Proof. solve_decision. Defined.

(** ** The store *)

(** [Kv] is the key-value map of the layer, [CountDiff] the count of
    every value relative to the parent, [Parent] the enclosing store
    ([None] is Go's nil). *)
#[local] Unset Elimination Schemes.
Inductive Store : Type :=
  MkStore (kv : gmap string string) (cd : gmap string Z)
          (parent : option Store).
#[local] Set Elimination Schemes.

Definition Kv (s : Store) : gmap string string :=
  match s with MkStore kv _ _ => kv end.

Definition CountDiff (s : Store) : gmap string Z :=
  match s with MkStore _ cd _ => cd end.

Definition Parent (s : Store) : option Store :=
  match s with MkStore _ _ p => p end.

(** Reading a missing key of a Go map gives the zero value. *)
Definition cnt_of (m : gmap string Z) (value : string) : Z :=
  default 0 (m !! value).

(** [m[value] += d] on a [map[string]int]. *)
Definition cnt_add (m : gmap string Z) (value : string) (d : Z)
  : gmap string Z :=
  <[value := wrap (cnt_of m value + d)]> m.

Definition NewStore (parent : option Store) : Store :=
  MkStore ∅ ∅ parent.

Definition InitStore : Store := NewStore None.

Fixpoint GetPrimaryStore (s : Store) : Store :=
  match s with
  | MkStore _ _ None => s
  | MkStore _ _ (Some p) => GetPrimaryStore p
  end.

(** [Get] returns the pair (value, err) of the Go method; a missing
    key leaves [value] at the zero value of string. *)
Fixpoint Get (s : Store) (key : string) : string * option error :=
  match s with
  | MkStore kv _ parent =>
      match kv !! key with
      | Some value => (value, None)
      | None =>
          match parent with
          | None => (EmptyString, Some ERR_KEY_NOT_EXIST)
          | Some p => Get p key
          end
      end
  end.

(** [Set] changes the receiver in place; the store returned is the
    receiver after the call. *)
Definition Set_ (s : Store) (key value : string) : Store * option error :=
  let '(oldValue, err) := Get s key in
  if bool_decide (err ≠ None ∧ err ≠ Some ERR_KEY_NOT_EXIST) then (s, err)
  else
    let cd1 :=
      if bool_decide (err ≠ Some ERR_KEY_NOT_EXIST)
      then cnt_add (CountDiff s) oldValue (-1)
      else CountDiff s in
    let kv1 := <[key := value]> (Kv s) in
    let cd2 :=
      if bool_decide (value ≠ EmptyString)
      then cnt_add cd1 value 1
      else cd1 in
    (MkStore kv1 cd2 (Parent s), None).

(** [Delete] drops the error of its call of [Set]. *)
Definition Delete (s : Store) (key : string) : Store * option error :=
  let '(value, err) := Get s key in
  match err with
  | Some e => (s, Some e)
  | None => (fst (Set_ s key EmptyString), None)
  end.

Fixpoint Count (s : Store) (value : string) : Z * option error :=
  match s with
  | MkStore _ cd parent =>
      let cnt := cnt_of cd value in
      match parent with
      | None => (cnt, None)
      | Some p =>
          let '(pCnt, err) := Count p value in
          match err with
          | Some e => (-1, Some e)
          | None => (wrap (cnt + pCnt), None)
          end
      end
  end.

(** The methods below set the global [currentStore]; the store
    returned is its value after the call. *)
Definition Begin (s : Store) : Store * option error :=
  (NewStore (Some s), None).

Definition Rollback (s : Store) : Store * option error :=
  match Parent s with
  | None => (s, Some ERR_NOT_TRANSACTION)
  | Some p => (p, None)
  end.

(** The loop [for val, cnt := range s.CountDiff] of commitCountDiffs,
    adding the entries of [child] into [parent]. Go ranges over a map
    in an unspecified order; each key is visited once, so the order
    does not show in the result ([cnt_of_add_diffs]). *)
Definition add_diffs (parent child : gmap string Z) : gmap string Z :=
  map_fold (fun val cnt acc => cnt_add acc val cnt) parent child.

(** [commit_from s cd] is [s.commitCountDiffs()] when [s.CountDiff]
    holds [cd]: the loop of the child has already changed the map of
    [s] when the recursive call on [s] starts. *)
Fixpoint commit_from (s : Store) (cd : gmap string Z) : gmap string Z :=
  match s with
  | MkStore _ _ None => cd
  | MkStore _ _ (Some p) => commit_from p (add_diffs (CountDiff p) cd)
  end.

Definition commitCountDiffs (s : Store) : gmap string Z :=
  commit_from s (CountDiff s).

(** The loop [for k, v := range s.Kv] of Commit; the order does not
    show in the result either ([write_all_union]). *)
Definition write_all (primary_kv kv : gmap string string)
  : gmap string string :=
  map_fold (fun k v acc => <[k := v]> acc) primary_kv kv.

Definition Commit (s : Store) : Store * option error :=
  match Parent s with
  | None => (s, Some ERR_NOT_TRANSACTION)
  | Some _ =>
      let primary := GetPrimaryStore s in
      let kv := write_all (Kv primary) (Kv s) in
      let cd := commitCountDiffs s in
      (MkStore kv cd (Parent primary), None)
  end.

(** ** The GET handler of the interpreter *)

Definition handleGet (s : Store) (key : string) : string * option error :=
  let '(val, err) := Get s key in
  if bool_decide (err = Some ERR_KEY_NOT_EXIST ∨ val = EmptyString)
  then ("NULL"%string, None)
  else (val, err).

(** ** The seven operations as commands *)

Inductive Op : Type :=
  | OpBegin
  | OpRollback
  | OpCommit
  | OpGet (key : string)
  | OpSet (key value : string)
  | OpDelete (key : string)
  | OpCount (value : string).

(** What a call hands back besides the error. *)
Inductive Payload : Type :=
  | PNone
  | PValue (value : string)
  | PCount (cnt : Z).

(** One call on the current store: the current store afterwards, the
    payload and the error. *)
Definition exec (s : Store) (o : Op) : Store * Payload * option error :=
  match o with
  | OpBegin => let '(s', e) := Begin s in (s', PNone, e)
  | OpRollback => let '(s', e) := Rollback s in (s', PNone, e)
  | OpCommit => let '(s', e) := Commit s in (s', PNone, e)
  | OpGet key => let '(v, e) := Get s key in (s, PValue v, e)
  | OpSet key value => let '(s', e) := Set_ s key value in (s', PNone, e)
  | OpDelete key => let '(s', e) := Delete s key in (s', PNone, e)
  | OpCount value => let '(c, e) := Count s value in (s, PCount c, e)
  end.

Definition next (s : Store) (o : Op) : Store := fst (fst (exec s o)).

Fixpoint run (s : Store) (ops : list Op) : Store :=
  match ops with
  | [] => s
  | o :: rest => run (next s o) rest
  end.

(** Number of open transactions. *)
Fixpoint depth (s : Store) : nat :=
  match s with
  | MkStore _ _ None => O
  | MkStore _ _ (Some p) => S (depth p)
  end.

(** ** Vocabulary of the properties *)

(** Every counter stored in the chain is a Go int. *)
Fixpoint int_ok (s : Store) : Prop :=
  match s with
  | MkStore _ cd parent =>
      map_Forall (fun _ z => in_range z) cd ∧
      match parent with
      | None => True
      | Some p => int_ok p
      end
  end.

#[global] Instance int_ok_dec : ∀ s, Decision (int_ok s).
Proof.
  fix IH 1. intros [kv cd [p|]]; simpl.
  - apply and_dec; [apply _|apply IH].
  - apply _.
Defined.

(** The layers of the chain, the current one first. *)
Fixpoint layers (s : Store) : list Store :=
  match s with
  | MkStore _ _ None => [s]
  | MkStore _ _ (Some p) => s :: layers p
  end.

(** The count map of the receiver after [Set]. *)
Definition Set_counts (s : Store) (key value : string) : gmap string Z :=
  let cd1 :=
    if bool_decide (snd (Get s key) ≠ Some ERR_KEY_NOT_EXIST)
    then cnt_add (CountDiff s) (fst (Get s key)) (-1)
    else CountDiff s in
  if bool_decide (value ≠ EmptyString) then cnt_add cd1 value 1 else cd1.

(** How [Set key value] moves the count of [w]: the key leaves its old
    value and joins the new one unless that is the empty string. *)
Definition leaves (s : Store) (key w : string) : Z :=
  if decide (snd (Get s key) ≠ Some ERR_KEY_NOT_EXIST ∧ fst (Get s key) = w)
  then 1 else 0.

Definition joins (value w : string) : Z :=
  if decide (value ≠ EmptyString ∧ value = w) then 1 else 0.

Definition with_counts (s : Store) (cd : gmap string Z) : Store :=
  MkStore (Kv s) cd (Parent s).

(** The first overlay of the chain that records [key], if any. *)
Definition first_hit (s : Store) (key : string) : option string :=
  head (omap (fun l => Kv l !! key) (layers s)).

(** The store [n] parents up the chain. *)
Fixpoint ancestor (n : nat) (s : Store) : option Store :=
  match n with
  | O => Some s
  | S m =>
      match Parent s with
      | None => None
      | Some p => ancestor m p
      end
  end.

(** The transaction opened on a store of depth [base] is open in [s]
    and stays open while [ops] run, and it is the innermost open one
    when they end: the Rollback that follows is the one matching it. *)
Fixpoint stays_open (base : nat) (s : Store) (ops : list Op) : Prop :=
  (base < depth s)%nat ∧
  match ops with
  | [] => depth s = S base
  | o :: rest => stays_open base (next s o) rest
  end.

(** The same condition read off the operations alone, [d] being the
    number of transactions open on top of the store that Begin was
    called on: no Commit is called, a Rollback closes a transaction
    begun later, and none of those is left open. *)
Fixpoint nesting (d : nat) (ops : list Op) : Prop :=
  match ops with
  | [] => d = 1%nat
  | OpBegin :: rest => nesting (S d) rest
  | OpRollback :: rest => (2 ≤ d)%nat ∧ nesting (pred d) rest
  | OpCommit :: rest => False
  | _ :: rest => nesting d rest
  end.

(** The operations that neither open nor close a transaction. *)
Definition plain (o : Op) : Prop :=
  match o with
  | OpGet _ | OpSet _ _ | OpDelete _ | OpCount _ => True
  | OpBegin | OpRollback | OpCommit => False
  end.

(** What the calls of a run hand back, in order. *)
Fixpoint outputs (s : Store) (ops : list Op)
  : list (Payload * option error) :=
  match ops with
  | [] => []
  | o :: rest => (snd (fst (exec s o)), snd (exec s o)) :: outputs (next s o) rest
  end.

(** Both stores answer every Get and every Count alike. *)
Definition same_answers (s t : Store) : Prop :=
  (∀ key, Get s key = Get t key) ∧ (∀ value, Count s value = Count t value).

(** The keys recorded somewhere in the chain. *)
Fixpoint keys (s : Store) : gset string :=
  match s with
  | MkStore kv _ None => dom kv
  | MkStore kv _ (Some p) => dom kv ∪ keys p
  end.

(** The keys that [Get] resolves to [value]. *)
Definition holders (s : Store) (value : string) : gset string :=
  filter (fun key => Get s key = (value, None)) (keys s).

(** [Count] agrees with [Get] on the values other than the empty
    string; the sum is a Go int. *)
Definition counts_match (s : Store) : Prop :=
  ∀ w, w ≠ EmptyString →
       fst (Count s w) = wrap (Z.of_nat (size (holders s w))).

(** The invariant holds for the current store and for each of its
    ancestors, which Rollback brings back. *)
Definition consistent (s : Store) : Prop :=
  int_ok s ∧ Forall counts_match (layers s).

(** Every Commit of the run is called with at most one transaction
    open. *)
Fixpoint commits_shallow (s : Store) (ops : list Op) : Prop :=
  match ops with
  | [] => True
  | o :: rest =>
      (o = OpCommit → (depth s ≤ 1)%nat) ∧ commits_shallow (next s o) rest
  end.

(** ** Measures on the chain *)

(** The sum, over the layers, of the absolute value of the counter of
    [value]. *)
Fixpoint weight (s : Store) (value : string) : Z :=
  match s with
  | MkStore _ cd None => Z.abs (cnt_of cd value)
  | MkStore _ cd (Some p) => Z.abs (cnt_of cd value) + weight p value
  end.

(** ** The line interpreter of main.go *)

Module Main.

(** The error values of main.go, next to the ones a handler passes on
    from the store. *)
Inductive stmt_error : Set :=
  | StoreError (e : error)
  | ERR_INVALID_COMMAND_KEYWORD
  | ERR_INVALID_ARGS_NUM
  | ERR_STMT_EMPTY.

#[global] Instance stmt_error_eq_dec : EqDecision stmt_error.
Proof. solve_decision. Defined.

(** The text [fmt.Println(err)] prints. *)
Definition Error (e : stmt_error) : string :=
  match e with
  | StoreError ERR_KEY_NOT_EXIST => "KEY NOT FOUND"
  | StoreError ERR_NOT_TRANSACTION => "TRANSACTION NOT FOUND"
  | ERR_INVALID_COMMAND_KEYWORD => "INVALID COMMAND"
  | ERR_INVALID_ARGS_NUM => "INVALID NUMBER OF ARGUMENTS PROVIDED"
  | ERR_STMT_EMPTY => "EMPTY STATEMENT PROVIDED"
  end.

(** [strings.TrimSpace] and [strings.ToUpper] of the Go library work on
    Unicode code points; they are parameters of the interpreter. *)
Class GoStrings : Type := {
  TrimSpace : string → string;
  ToUpper : string → string
}.

(** [strings.Split(s, " ")]: the pieces of [s] between the spaces; a
    string without space is its only piece. *)
Fixpoint Split (s : string) : list string :=
  match s with
  | EmptyString => [EmptyString]
  | String c rest =>
      if Ascii.eqb c " "%char then EmptyString :: Split rest
      else
        match Split rest with
        | [] => [String c EmptyString]
        | piece :: pieces => String c piece :: pieces
        end
  end.

(** [fmt.Sprintf] with the verb %d. *)
Definition Sprintf_d (cnt : Z) : string := pretty cnt.

(** How a call ends: it returns, with the current store after it, or
    the process exits ([os.Exit]), or an index is out of range. *)
Inductive Outcome : Type :=
  | Returned (s : Store) (output : string) (err : option stmt_error)
  | Exited
  | Panicked.

Definition of_store (e : option error) : option stmt_error :=
  StoreError <$> e.

(** The handlers, on the argument slice and the current store. *)
Definition handleSet (args : list string) (s : Store) : Outcome :=
  match args !! 0%nat, args !! 1%nat with
  | Some key, Some value =>
      let '(s', err) := Set_ s key value in
      Returned s' EmptyString (of_store err)
  | _, _ => Panicked
  end.

Definition handleGet (args : list string) (s : Store) : Outcome :=
  match args !! 0%nat with
  | Some key =>
      let '(val, err) := handleGet s key in
      Returned s val (of_store err)
  | None => Panicked
  end.

Definition handleDelete (args : list string) (s : Store) : Outcome :=
  match args !! 0%nat with
  | Some key =>
      let '(s', err) := Delete s key in
      Returned s' EmptyString (of_store err)
  | None => Panicked
  end.

Definition handleCount (args : list string) (s : Store) : Outcome :=
  match args !! 0%nat with
  | Some val =>
      let '(cnt, err) := Count s val in
      Returned s (Sprintf_d cnt) (of_store err)
  | None => Panicked
  end.

Definition handleBegin (args : list string) (s : Store) : Outcome :=
  let '(s', err) := Begin s in Returned s' EmptyString (of_store err).

Definition handleRollback (args : list string) (s : Store) : Outcome :=
  let '(s', err) := Rollback s in Returned s' EmptyString (of_store err).

Definition handleCommit (args : list string) (s : Store) : Outcome :=
  let '(s', err) := Commit s in Returned s' EmptyString (of_store err).

(** [handleEnd] reads the global [EnableTestMode]. *)
Definition handleEnd (EnableTestMode : bool) (args : list string)
    (s : Store) : Outcome :=
  if negb EnableTestMode then Exited
  else Returned InitStore EmptyString None.

Record ActionHandler : Type := {
  Fn : list string → Store → Outcome;
  NumArgs : nat
}.

Definition funcTable (EnableTestMode : bool)
  : list (string * ActionHandler) :=
  [ ("SET"%string, {| Fn := handleSet; NumArgs := 2 |});
    ("GET"%string, {| Fn := handleGet; NumArgs := 1 |});
    ("DELETE"%string, {| Fn := handleDelete; NumArgs := 1 |});
    ("COUNT"%string, {| Fn := handleCount; NumArgs := 1 |});
    ("BEGIN"%string, {| Fn := handleBegin; NumArgs := 0 |});
    ("ROLLBACK"%string, {| Fn := handleRollback; NumArgs := 0 |});
    ("COMMIT"%string, {| Fn := handleCommit; NumArgs := 0 |});
    ("END"%string, {| Fn := handleEnd EnableTestMode; NumArgs := 0 |}) ].

Definition funcMap (EnableTestMode : bool) : gmap string ActionHandler :=
  list_to_map (funcTable EnableTestMode).

Definition validateStatement `{GoStrings} (q : string)
  : option stmt_error :=
  if decide (TrimSpace q = EmptyString) then Some ERR_STMT_EMPTY else None.

(** [stmtSplit[0]] is out of range on an empty slice. *)
Definition extractCommandArgs `{GoStrings} (stmt : string)
  : option (string * list string) :=
  match Split stmt with
  | [] => None
  | word :: words => Some (ToUpper word, words)
  end.

Definition processStatement `{GoStrings} (EnableTestMode : bool)
    (s : Store) (stmt : string) : Outcome :=
  match validateStatement stmt with
  | Some err => Returned s EmptyString (Some err)
  | None =>
      match extractCommandArgs (TrimSpace stmt) with
      | None => Panicked
      | Some (cmd, args) =>
          match funcMap EnableTestMode !! cmd with
          | None => Returned s EmptyString (Some ERR_INVALID_COMMAND_KEYWORD)
          | Some h =>
              if decide (length args ≠ NumArgs h)
              then Returned s EmptyString (Some ERR_INVALID_ARGS_NUM)
              else Fn h args s
          end
      end
  end.

(** The lines one turn of the loop of [initializeStdInInterface]
    prints after the prompt. *)
Definition echo (output : string) (err : option stmt_error)
  : list string :=
  if decide (err = Some ERR_STMT_EMPTY) then []
  else
    match err with Some e => [Error e] | None => [] end ++
    (if decide (output ≠ EmptyString) then [output] else []).

(** *** The loop of [initializeStdInInterface] *)

Definition STDIN_PROMPT : string := ">> ".

(** What [fmt.Println] writes: the text and a newline. *)
Definition Println (text : string) : string :=
  text +:+ String "010"%char EmptyString.

(** What one turn of the loop finds after [scanner.Scan()]: the error
    of [scanner.Err()], here by its text, or, when that is nil, the
    line of [scanner.Text()] (the empty line once the input has
    ended). The scanner belongs to the Go library and reads the
    standard input; the loop is modelled against what it delivers. *)
Inductive Scanned : Type :=
  | ScanError (msg : string)
  | ScanText (stmt : string).

(** How the loop stands after some turns: waiting for the next line,
    with the current store, or left through [os.Exit], or panicked;
    each time with what it wrote to the standard output. *)
Inductive Session : Type :=
  | Waiting (s : Store) (written : list string)
  | Exit (written : list string)
  | Panic (written : list string).

Definition written_before (w : list string) (r : Session) : Session :=
  match r with
  | Waiting s w' => Waiting s (w ++ w')
  | Exit w' => Exit (w ++ w')
  | Panic w' => Panic (w ++ w')
  end.

(** The turns of the loop, one for each element of [turns]: the prompt
    is printed, then a scanner error is printed and the turn ends;
    otherwise the line is processed and [echo] gives the lines
    printed. *)
Fixpoint session `{GoStrings} (EnableTestMode : bool) (s : Store)
    (turns : list Scanned) : Session :=
  match turns with
  | [] => Waiting s []
  | ScanError msg :: rest =>
      written_before [STDIN_PROMPT; Println msg]
        (session EnableTestMode s rest)
  | ScanText stmt :: rest =>
      match processStatement EnableTestMode s stmt with
      | Returned s' output err =>
          written_before (STDIN_PROMPT :: map Println (echo output err))
            (session EnableTestMode s' rest)
      | Exited => Exit [STDIN_PROMPT]
      | Panicked => Panic [STDIN_PROMPT]
      end
  end.

(** *** Vocabulary of the properties of the interpreter *)

Definition error_of (o : Outcome) : option stmt_error :=
  match o with
  | Returned _ _ err => err
  | Exited | Panicked => None
  end.

(** The names of the commands, as [funcMap] has them. *)
Definition commands : list string :=
  ["SET"; "GET"; "DELETE"; "COUNT"; "BEGIN"; "ROLLBACK"; "COMMIT";
   "END"]%string.

(** The statement is the command END, without argument. *)
Definition is_end `{GoStrings} (stmt : string) : Prop :=
  TrimSpace stmt ≠ EmptyString ∧
  ∃ word, Split (TrimSpace stmt) = [word] ∧ ToUpper word = "END"%string.


(** The operation of the store that a command with its arguments
    stands for. *)
Definition op_of (cmd : string) (args : list string) : option Op :=
  match args with
  | [] =>
      if decide (cmd = "BEGIN"%string) then Some OpBegin
      else if decide (cmd = "ROLLBACK"%string) then Some OpRollback
      else if decide (cmd = "COMMIT"%string) then Some OpCommit
      else None
  | [a] =>
      if decide (cmd = "GET"%string) then Some (OpGet a)
      else if decide (cmd = "DELETE"%string) then Some (OpDelete a)
      else if decide (cmd = "COUNT"%string) then Some (OpCount a)
      else None
  | [a; b] => if decide (cmd = "SET"%string) then Some (OpSet a b) else None
  | _ => None
  end.

(** *** The test helper *)

Record MemoryDbTest : Type := {
  Inputs : list string;
  Outputs : list string
}.

(** What [exampleTestHelper] returns: nil, here with the store the
    test leaves, or one of its three errors. *)
Inductive TestResult : Type :=
  | Pass (s : Store)
  | InvalidParams
  | StmtError (stmt : string) (e : stmt_error)
  | Unexpected (stmt expected got : string)
  | Crashed.

Fixpoint exampleTestLoop `{GoStrings} (s : Store)
    (inputs outputs : list string) : TestResult :=
  match inputs, outputs with
  | stmt :: inputs', expected :: outputs' =>
      match processStatement true s stmt with
      | Returned s' out None =>
          if decide (out ≠ expected) then Unexpected stmt expected out
          else exampleTestLoop s' inputs' outputs'
      | Returned _ _ (Some e) => StmtError stmt e
      | Exited | Panicked => Crashed
      end
  | _, _ => Pass s
  end.

Definition exampleTestHelper `{GoStrings} (s : Store)
    (test : MemoryDbTest) : TestResult :=
  if decide (length (Inputs test) ≠ length (Outputs test))
  then InvalidParams
  else exampleTestLoop s (Inputs test) (Outputs test).

Definition Example0 : MemoryDbTest := {|
  Inputs := ["GET a"; "SET a foo"; "GET a"; "SET a bar"; "GET a";
             "COUNT bar"; "COUNT foo"; "END"]%string;
  Outputs := ["NULL"; EmptyString; "foo"; EmptyString; "bar"; "1"; "0";
              EmptyString]%string
|}.

Definition Example1 : MemoryDbTest := {|
  Inputs := ["GET a"; "SET a foo"; "SET b foo"; "COUNT foo"; "COUNT bar";
             "DELETE a"; "COUNT foo"; "SET b baz"; "COUNT foo"; "GET b";
             "GET B"; "END"]%string;
  Outputs := ["NULL"; EmptyString; EmptyString; "2"; "0"; EmptyString; "1";
              EmptyString; "0"; "baz"; "NULL"; EmptyString]%string
|}.

Definition Example2 : MemoryDbTest := {|
  Inputs := ["SET a foo"; "SET a foo"; "COUNT foo"; "GET a"; "DELETE a";
             "GET a"; "COUNT foo"; "END"]%string;
  Outputs := [EmptyString; EmptyString; "1"; "foo"; EmptyString; "NULL";
              "0"; EmptyString]%string
|}.

Definition Example3 : MemoryDbTest := {|
  Inputs := ["BEGIN"; "SET a foo"; "GET a"; "BEGIN"; "SET a bar"; "GET a";
             "ROLLBACK"; "GET a"; "ROLLBACK"; "GET a"; "END"]%string;
  Outputs := [EmptyString; EmptyString; "foo"; EmptyString; EmptyString;
              "bar"; EmptyString; "foo"; EmptyString; "NULL";
              EmptyString]%string
|}.

Definition Example4 : MemoryDbTest := {|
  Inputs := ["SET a foo"; "SET b baz"; "BEGIN"; "GET a"; "SET a bar";
             "COUNT bar"; "BEGIN"; "COUNT bar"; "DELETE a"; "GET a";
             "COUNT bar"; "ROLLBACK"; "GET a"; "COUNT bar"; "COMMIT";
             "GET a"; "GET b"; "END"]%string;
  Outputs := [EmptyString; EmptyString; EmptyString; "foo"; EmptyString;
              "1"; EmptyString; "1"; EmptyString; "NULL"; "0"; EmptyString;
              "bar"; "1"; EmptyString; "bar"; "baz"; EmptyString]%string
|}.

(** *** The library functions on ASCII strings *)

(** On strings of ASCII characters [strings.TrimSpace] removes the
    characters of [Ascii.is_space] from both ends, and
    [strings.ToUpper] maps the letters a to z to A to Z. *)
Fixpoint trim_left (s : string) : string :=
  match s with
  | EmptyString => EmptyString
  | String c rest => if Ascii.is_space c then trim_left rest else s
  end.

Fixpoint trim_right (s : string) : string :=
  match s with
  | EmptyString => EmptyString
  | String c rest =>
      match trim_right rest with
      | EmptyString =>
          if Ascii.is_space c then EmptyString else String c EmptyString
      | kept => String c kept
      end
  end.

Definition upper (c : ascii) : ascii :=
  let n := Ascii.N_of_ascii c in
  if ((97 <=? n) && (n <=? 122))%N then Ascii.ascii_of_N (n - 32) else c.

Fixpoint upper_all (s : string) : string :=
  match s with
  | EmptyString => EmptyString
  | String c rest => String (upper c) (upper_all rest)
  end.

Definition ascii_strings : GoStrings := {|
  TrimSpace s := trim_right (trim_left s);
  ToUpper := upper_all
|}.

End Main.

(** * Properties *)

Example scenario_a :
  let s1 := run InitStore [OpSet "a" "foo"; OpSet "a" "foo"] in
  let s2 := run s1 [OpDelete "a"] in
  Count s1 "foo" = (1, None) ∧ Get s1 "a" = ("foo"%string, None) ∧
  handleGet s2 "a" = ("NULL"%string, None) ∧ Count s2 "foo" = (0, None).
Proof. vm_compute. auto. Qed.

Example scenario_b :
  outputs InitStore
    [OpBegin; OpSet "a" "foo"; OpGet "a"; OpBegin; OpSet "a" "bar";
     OpGet "a"; OpRollback; OpGet "a"; OpRollback; OpGet "a"] =
  [(PNone, None); (PNone, None); (PValue "foo", None); (PNone, None);
   (PNone, None); (PValue "bar", None); (PNone, None);
   (PValue "foo", None); (PNone, None);
   (PValue EmptyString, Some ERR_KEY_NOT_EXIST)].
Proof. by vm_compute. Qed.

Example test_example4 :
  outputs InitStore
    [OpSet "a" "foo"; OpSet "b" "baz"; OpBegin; OpGet "a"; OpSet "a" "bar";
     OpCount "bar"; OpBegin; OpCount "bar"; OpDelete "a"; OpGet "a";
     OpCount "bar"; OpRollback; OpGet "a"; OpCount "bar"; OpCommit;
     OpGet "a"; OpGet "b"] =
  [(PNone, None); (PNone, None); (PNone, None); (PValue "foo", None);
   (PNone, None); (PCount 1, None); (PNone, None); (PCount 1, None);
   (PNone, None); (PValue EmptyString, None); (PCount 0, None);
   (PNone, None); (PValue "bar", None); (PCount 1, None); (PNone, None);
   (PValue "bar", None); (PValue "baz", None)].
Proof. by vm_compute. Qed.

(** ** Arithmetic of [wrap] *)

Lemma wrap_in_range z : in_range (wrap z).
Proof.
  unfold in_range, wrap, int_max, int_min, int_bits.
  set (a := z - - 2 ^ (64 - 1)).
  pose proof (Z.mod_pos_bound a (2 ^ 64) eq_refl) as Hm.
  set (r := a mod 2 ^ 64) in *. clearbody r. clear a.
  change (2 ^ (64 - 1)) with 9223372036854775808.
  change (2 ^ 64) with 18446744073709551616 in Hm.
  lia.
Qed.

Lemma wrap_id z : in_range z → wrap z = z.
Proof.
  unfold in_range, wrap, int_max, int_min, int_bits.
  change (2 ^ (64 - 1)) with 9223372036854775808.
  change (2 ^ 64) with 18446744073709551616.
  intros Hz. rewrite Z.mod_small; lia.
Qed.

Lemma wrap_idemp z : wrap (wrap z) = wrap z.
Proof. apply wrap_id, wrap_in_range. Qed.

Lemma wrap_add_l a b : wrap (wrap a + b) = wrap (a + b).
Proof.
  unfold wrap. f_equal.
  replace ((a - int_min) mod 2 ^ int_bits + int_min + b - int_min)
    with ((a - int_min) mod 2 ^ int_bits + b) by lia.
  replace (a + b - int_min) with ((a - int_min) + b) by lia.
  apply Zplus_mod_idemp_l.
Qed.

Lemma wrap_add_r a b : wrap (a + wrap b) = wrap (a + b).
Proof. rewrite (Z.add_comm a), wrap_add_l. f_equal. lia. Qed.

Lemma wrap_move a b c : wrap (wrap a - b + c) = wrap (a - b + c).
Proof.
  replace (wrap a - b + c) with (wrap a + (c - b)) by lia.
  rewrite wrap_add_l. f_equal. lia.
Qed.

Lemma wrap_0 : wrap 0 = 0.
Proof. reflexivity. Qed.

Lemma in_range_0 : in_range 0.
Proof. unfold in_range, int_min, int_max. split; by vm_compute. Qed.

(** ** Induction along the chain of parents *)

Lemma Store_ind (P : Store → Prop) :
  (∀ kv cd, P (MkStore kv cd None)) →
  (∀ kv cd p, P p → P (MkStore kv cd (Some p))) →
  ∀ s, P s.
Proof.
  intros Hroot Hchild.
  fix IH 1. intros [kv cd [p|]].
  - apply Hchild, IH.
  - apply Hroot.
Qed.

(** ** Counters *)

Lemma cnt_of_empty v : cnt_of ∅ v = 0.
Proof. unfold cnt_of. by rewrite lookup_empty. Qed.

Lemma cnt_of_add m v d w :
  cnt_of (cnt_add m v d) w =
  if decide (v = w) then wrap (cnt_of m v + d) else cnt_of m w.
Proof.
  unfold cnt_add, cnt_of at 1. rewrite lookup_insert.
  destruct (decide (v = w)); done.
Qed.

Lemma cnt_of_in_range m v :
  map_Forall (fun _ z => in_range z) m → in_range (cnt_of m v).
Proof.
  intros Hm. unfold cnt_of. destruct (m !! v) as [z|] eqn:E; simpl.
  - by apply (Hm v).
  - apply in_range_0.
Qed.

Lemma cnt_add_in_range m v d :
  map_Forall (fun _ z => in_range z) m →
  map_Forall (fun _ z => in_range z) (cnt_add m v d).
Proof.
  intros Hm. unfold cnt_add. apply map_Forall_insert_2; [|done].
  apply wrap_in_range.
Qed.

Lemma add_diffs_in_range parent child :
  map_Forall (fun _ z => in_range z) parent →
  map_Forall (fun _ z => in_range z) (add_diffs parent child).
Proof.
  intros Hp. unfold add_diffs.
  induction child as [|val cnt child Hval Hfold IH] using map_first_key_ind.
  - by rewrite map_fold_empty.
  - rewrite map_fold_insert_first_key by done.
    by apply cnt_add_in_range.
Qed.

Lemma cnt_of_add_diffs parent child v :
  cnt_of (add_diffs parent child) v =
  match child !! v with
  | Some cnt => wrap (cnt_of parent v + cnt)
  | None => cnt_of parent v
  end.
Proof.
  unfold add_diffs.
  induction child as [|val cnt child Hval Hfold IH] using map_first_key_ind.
  - by rewrite map_fold_empty, lookup_empty.
  - rewrite map_fold_insert_first_key by done.
    rewrite cnt_of_add, lookup_insert.
    destruct (decide (val = v)) as [->|Hne]; [|done].
    rewrite IH, Hval. done.
Qed.

Lemma write_all_union primary_kv kv : write_all primary_kv kv = kv ∪ primary_kv.
Proof.
  unfold write_all.
  induction kv as [|k v kv Hk Hfold IH] using map_first_key_ind.
  - by rewrite map_fold_empty, (left_id_L ∅ (∪)).
  - rewrite map_fold_insert_first_key by done.
    by rewrite IH, insert_union_l.
Qed.

(** ** Lookup *)

Lemma Get_error s key :
  snd (Get s key) = None ∨
  Get s key = (EmptyString, Some ERR_KEY_NOT_EXIST).
Proof.
  induction s as [kv cd|kv cd p IH] using Store_ind; simpl;
    destruct (kv !! key); auto.
Qed.

Lemma Get_found s key value :
  Kv s !! key = Some value → Get s key = (value, None).
Proof. destruct s as [kv cd p]; simpl. by intros ->. Qed.

Lemma Get_parent s p key :
  Kv s !! key = None → Parent s = Some p → Get s key = Get p key.
Proof. destruct s as [kv cd q]; simpl. by intros -> ->. Qed.

Lemma Get_root_missing s key :
  Kv s !! key = None → Parent s = None →
  Get s key = (EmptyString, Some ERR_KEY_NOT_EXIST).
Proof. destruct s as [kv cd q]; simpl. by intros -> ->. Qed.

(** ** Count *)

Lemma Count_error s value : snd (Count s value) = None.
Proof.
  induction s as [kv cd|kv cd p IH] using Store_ind; simpl; [done|].
  destruct (Count p value) as [pCnt err]. simpl in IH. by subst err.
Qed.

Lemma Count_pair s value : Count s value = (fst (Count s value), None).
Proof.
  pose proof (Count_error s value). by destruct (Count s value); simplify_eq/=.
Qed.

Lemma Count_root s value :
  Parent s = None → Count s value = (cnt_of (CountDiff s) value, None).
Proof. destruct s as [kv cd q]; simpl. by intros ->. Qed.

Lemma Count_child s p value :
  Parent s = Some p →
  Count s value =
  (wrap (cnt_of (CountDiff s) value + fst (Count p value)), None).
Proof.
  destruct s as [kv cd q]; simpl. intros ->.
  pose proof (Count_error p value) as He.
  destruct (Count p value) as [pCnt err]. simpl in *. by subst err.
Qed.

Lemma Count_in_range s value : int_ok s → in_range (fst (Count s value)).
Proof.
  destruct s as [kv cd [p|]]; intros [Hcd Hp].
  - rewrite (Count_child _ p) by done. apply wrap_in_range.
  - rewrite Count_root by done. by apply cnt_of_in_range.
Qed.

(** ** Set *)

Lemma Set_unfold s key value :
  Set_ s key value =
  (MkStore (<[key := value]> (Kv s)) (Set_counts s key value) (Parent s),
   None).
Proof.
  unfold Set_, Set_counts.
  destruct (Get_error s key) as [He|He].
  - destruct (Get s key) as [old err]. simpl in He. subst err.
    rewrite bool_decide_eq_false_2; [done|]. by intros [? _].
  - rewrite He. rewrite bool_decide_eq_false_2; [done|]. by intros [_ ?].
Qed.

Lemma Set_error s key value : snd (Set_ s key value) = None.
Proof. by rewrite Set_unfold. Qed.

Lemma Parent_Set s key value : Parent (fst (Set_ s key value)) = Parent s.
Proof. by rewrite Set_unfold. Qed.

Lemma Get_Set s key value k :
  Get (fst (Set_ s key value)) k =
  if decide (key = k) then (value, None) else Get s k.
Proof.
  rewrite Set_unfold. destruct s as [kv cd p]; simpl.
  rewrite lookup_insert. destruct (decide (key = k)); done.
Qed.

Lemma cnt_of_Set_counts s key value w :
  map_Forall (fun _ z => in_range z) (CountDiff s) →
  cnt_of (Set_counts s key value) w =
  wrap (cnt_of (CountDiff s) w - leaves s key w + joins value w).
Proof.
  intros Hok. pose proof (cnt_of_in_range _ w Hok) as Hw.
  unfold Set_counts, leaves, joins.
  repeat case_bool_decide; repeat case_decide;
    rewrite ?cnt_of_add; repeat case_decide; rewrite ?cnt_of_add;
    repeat case_decide; subst; try tauto;
    rewrite ?wrap_add_l; try (f_equal; lia);
    by rewrite Z.sub_0_r, Z.add_0_r, wrap_id.
Qed.

Lemma Set_counts_in_range s key value :
  map_Forall (fun _ z => in_range z) (CountDiff s) →
  map_Forall (fun _ z => in_range z) (Set_counts s key value).
Proof.
  intros Hok. unfold Set_counts.
  repeat case_bool_decide; auto using cnt_add_in_range.
Qed.

Lemma int_ok_Set s key value : int_ok s → int_ok (fst (Set_ s key value)).
Proof.
  rewrite Set_unfold. destruct s as [kv cd p]. simpl. intros [Hcd Hp].
  split; [|done]. by apply (Set_counts_in_range (MkStore kv cd p)).
Qed.

Lemma Count_Set s key value w :
  int_ok s →
  fst (Count (fst (Set_ s key value)) w) =
  wrap (fst (Count s w) - leaves s key w + joins value w).
Proof.
  intros Hok. rewrite Set_unfold. cbn [fst].
  destruct s as [kv cd [p|]]; destruct Hok as [Hcd Hp]; cbn [Kv Parent].
  - rewrite (Count_child (MkStore _ _ (Some p)) p _ eq_refl).
    rewrite (Count_child (MkStore kv cd (Some p)) p _ eq_refl).
    cbn [fst CountDiff]. rewrite cnt_of_Set_counts by done.
    cbn [CountDiff]. rewrite wrap_add_l, wrap_move. f_equal. lia.
  - rewrite !Count_root by done. cbn [fst CountDiff].
    by rewrite cnt_of_Set_counts.
Qed.

(** ** Delete *)

Lemma Delete_missing s key :
  snd (Get s key) = Some ERR_KEY_NOT_EXIST →
  Delete s key = (s, Some ERR_KEY_NOT_EXIST).
Proof.
  unfold Delete. destruct (Get s key) as [value err]. simpl. by intros ->.
Qed.

Lemma Delete_found s key :
  snd (Get s key) = None →
  Delete s key = (fst (Set_ s key EmptyString), None).
Proof.
  unfold Delete. destruct (Get s key) as [value err]. simpl. by intros ->.
Qed.

Lemma Delete_cases s key :
  Delete s key = (s, Some ERR_KEY_NOT_EXIST) ∧
    snd (Get s key) = Some ERR_KEY_NOT_EXIST ∨
  Delete s key = (fst (Set_ s key EmptyString), None) ∧
    snd (Get s key) = None.
Proof.
  destruct (Get_error s key) as [He|He].
  - right. split; [by apply Delete_found|done].
  - left. rewrite He. split; [apply Delete_missing; by rewrite He|done].
Qed.

(** ** Begin *)

Lemma Get_Begin s key : Get (fst (Begin s)) key = Get s key.
Proof. simpl. by rewrite lookup_empty. Qed.

Lemma Count_Begin s value :
  int_ok s → Count (fst (Begin s)) value = Count s value.
Proof.
  intros Hok. cbn [Begin fst NewStore].
  rewrite (Count_child _ s) by done. cbn [CountDiff].
  rewrite cnt_of_empty, Z.add_0_l, wrap_id by by apply Count_in_range.
  symmetry. apply Count_pair.
Qed.

(** ** Commit *)

Lemma GetPrimaryStore_root s : Parent (GetPrimaryStore s) = None.
Proof. induction s as [kv cd|kv cd p IH] using Store_ind; done. Qed.

Lemma Commit_root s :
  Parent s = None → Commit s = (s, Some ERR_NOT_TRANSACTION).
Proof. unfold Commit. by intros ->. Qed.

Lemma Commit_nested s p :
  Parent s = Some p →
  Commit s =
  (MkStore (Kv s ∪ Kv (GetPrimaryStore s)) (commitCountDiffs s) None, None).
Proof.
  unfold Commit. intros ->.
  by rewrite write_all_union, GetPrimaryStore_root.
Qed.

(** Only the overlay of the current store is written to the primary
    store: the overlays of the layers in between are passed over. *)
Lemma Get_Commit s p key :
  Parent s = Some p →
  Get (fst (Commit s)) key =
  match Kv s !! key with
  | Some value => (value, None)
  | None => Get (GetPrimaryStore s) key
  end.
Proof.
  intros Hp. rewrite (Commit_nested s p Hp). cbn [fst Get].
  pose proof (GetPrimaryStore_root s) as Hroot.
  destruct (GetPrimaryStore s) as [kvr cdr q]. simpl in Hroot. subst q.
  cbn [Kv Get]. rewrite lookup_union.
  destruct (Kv s !! key) as [v|], (kvr !! key) as [v'|]; done.
Qed.

Lemma with_counts_same s : with_counts s (CountDiff s) = s.
Proof. by destruct s. Qed.

Lemma commit_from_Count s cd value :
  int_ok s →
  cnt_of (commit_from s cd) value = fst (Count (with_counts s cd) value).
Proof.
  revert cd. induction s as [kv cdr|kv cds p IH] using Store_ind;
    intros cd Hok; [done|].
  destruct Hok as [_ Hp]. cbn [commit_from]. rewrite IH by done.
  unfold with_counts at 2. cbn [Kv Parent].
  rewrite (Count_child (MkStore _ _ (Some p)) p _ eq_refl).
  cbn [fst CountDiff].
  destruct p as [kvp cdp [q|]]; unfold with_counts; cbn [Kv Parent CountDiff].
  - rewrite !(Count_child (MkStore _ _ (Some q)) q _ eq_refl).
    cbn [fst CountDiff]. rewrite cnt_of_add_diffs, wrap_add_r.
    unfold cnt_of at 3. destruct (cd !! value) as [c|]; simpl.
    + rewrite wrap_add_l. f_equal. lia.
    + done.
  - rewrite !Count_root by done. cbn [fst CountDiff].
    rewrite cnt_of_add_diffs. unfold cnt_of at 3.
    destruct (cd !! value) as [c|]; simpl.
    + f_equal. lia.
    + destruct Hp as [Hcdp _]. symmetry. apply wrap_id.
      by apply cnt_of_in_range.
Qed.

(** The count deltas of every layer reach the primary store. *)
Lemma Count_Commit s p value :
  Parent s = Some p → int_ok s →
  Count (fst (Commit s)) value = Count s value.
Proof.
  intros Hp Hok. rewrite (Commit_nested s p Hp). cbn [fst].
  rewrite Count_root by done. cbn [CountDiff]. unfold commitCountDiffs.
  rewrite commit_from_Count, with_counts_same by done.
  symmetry. apply Count_pair.
Qed.

Lemma commit_from_in_range s cd :
  map_Forall (fun _ z => in_range z) cd → int_ok s →
  map_Forall (fun _ z => in_range z) (commit_from s cd).
Proof.
  revert cd. induction s as [kv cdr|kv cds p IH] using Store_ind;
    intros cd Hcd Hok; [done|].
  destruct Hok as [_ Hp]. cbn [commit_from]. apply IH; [|done].
  destruct p as [kvp cdp q]. destruct Hp as [Hcdp _].
  by apply add_diffs_in_range.
Qed.

Lemma int_ok_Commit s : int_ok s → int_ok (fst (Commit s)).
Proof.
  intros Hok. destruct (Parent s) as [p|] eqn:Hp.
  - rewrite (Commit_nested s p Hp). split; [|done].
    apply commit_from_in_range; [|done]. by destruct s as [kv cd q], Hok.
  - by rewrite Commit_root.
Qed.

(** At depth one the primary store is the parent, and nothing is
    passed over. *)
Lemma Get_Commit_depth1 s p key :
  Parent s = Some p → Parent p = None →
  Get (fst (Commit s)) key = Get s key.
Proof.
  intros Hp Hroot. rewrite (Get_Commit s p) by done.
  destruct s as [kv cd q]. simpl in Hp. subst q. cbn [Kv Get GetPrimaryStore].
  destruct (kv !! key); [done|]. by destruct p as [kvp cdp [q|]].
Qed.

(** ** Invariance of [int_ok] *)

Lemma int_ok_next s o : int_ok s → int_ok (next s o).
Proof.
  intros Hok. unfold next. destruct o; cbn [exec].
  - split; [apply map_Forall_empty|done].
  - unfold Rollback. destruct s as [kv cd [p|]]; [|done]. by destruct Hok.
  - pose proof (int_ok_Commit s Hok). by destruct (Commit s).
  - by destruct (Get s key).
  - pose proof (int_ok_Set s key value Hok). by destruct (Set_ s key value).
  - destruct (Delete_cases s key) as [[-> _]|[-> _]]; [done|].
    by apply int_ok_Set.
  - by destruct (Count s value).
Qed.

Lemma int_ok_run ops : ∀ s, int_ok s → int_ok (run s ops).
Proof.
  induction ops as [|o ops IH]; intros s Hok; [done|].
  apply IH. by apply int_ok_next.
Qed.

Lemma int_ok_Init : int_ok InitStore.
Proof. split; [apply map_Forall_empty|done]. Qed.

(** * Lookup: nearest overlay wins *)

Lemma Get_first_hit s key :
  Get s key =
  match first_hit s key with
  | Some value => (value, None)
  | None => (EmptyString, Some ERR_KEY_NOT_EXIST)
  end.
Proof.
  unfold first_hit.
  induction s as [kv cd|kv cd p IH] using Store_ind; simpl.
  - destruct (kv !! key); done.
  - destruct (kv !! key); [done|]. apply IH.
Qed.

Lemma first_hit_None s key :
  first_hit s key = None ↔ ∀ l, l ∈ layers s → Kv l !! key = None.
Proof.
  unfold first_hit.
  induction s as [kv cd|kv cd p IH] using Store_ind; simpl.
  - destruct (kv !! key) eqn:E; simpl; split; try done.
    + intros H. specialize (H (MkStore kv cd None)).
      rewrite list_elem_of_singleton in H. simpl in H.
      rewrite <- E. by apply H.
    + intros _ l ->%list_elem_of_singleton. done.
  - destruct (kv !! key) eqn:E; simpl.
    + split; [done|]. intros H.
      specialize (H (MkStore kv cd (Some p)) (list_elem_of_here _ _)).
      simpl in H. congruence.
    + rewrite IH. split.
      * intros H l [->|Hl]%elem_of_cons; [done|by apply H].
      * intros H l Hl. apply H. by apply list_elem_of_further.
Qed.

(** C7. [Get] resolves by nearest overlay wins: a key recorded in the
    overlay of the store is answered from it, the empty string included;
    a key the overlay lacks is looked up in the parent when there is one;
    the answer is in every case the first hit along the chain, and [Get]
    fails, with ERR_KEY_NOT_EXIST, exactly when no layer from the
    current one to the root records the key. *)
Theorem Get_nearest_overlay_wins (s : Store) (key : string) :
  Get s key =
    match Kv s !! key with
    | Some value => (value, None)
    | None =>
        match Parent s with
        | Some p => Get p key
        | None => (EmptyString, Some ERR_KEY_NOT_EXIST)
        end
    end ∧
  Get s key =
    match first_hit s key with
    | Some value => (value, None)
    | None => (EmptyString, Some ERR_KEY_NOT_EXIST)
    end ∧
  (snd (Get s key) ≠ None ↔ ∀ l, l ∈ layers s → Kv l !! key = None) ∧
  (snd (Get s key) ≠ None ↔ snd (Get s key) = Some ERR_KEY_NOT_EXIST).
Proof.
  split; [by destruct s as [kv cd [p|]]|].
  split; [apply Get_first_hit|].
  rewrite <- first_hit_None, Get_first_hit.
  destruct (first_hit s key); simpl; split; split; done.
Qed.

Lemma Get_nearest_overlay_wins_witness :
  let s := run InitStore [OpSet "a" "foo"; OpBegin; OpDelete "a"; OpBegin] in
  Get s "a" = (EmptyString, None) ∧
  (snd (Get s "b") ≠ None ↔ ∀ l, l ∈ layers s → Kv l !! "b" = None).
Proof.
  intros s. split; [by vm_compute|].
  apply (Get_nearest_overlay_wins s "b").
Defined.

(** * Set never fails *)

(** C10. [Set] returns nil for every key, every value (the empty string
    included) and every store: the error [Get] hands to it is nil or
    ERR_KEY_NOT_EXIST, so the test guarding the early return of [Set] is
    false in every call. *)
Theorem Set_never_fails (s : Store) (key value : string) :
  snd (Set_ s key value) = None ∧
  bool_decide (snd (Get s key) ≠ None ∧
               snd (Get s key) ≠ Some ERR_KEY_NOT_EXIST) = false ∧
  (snd (Get s key) = None ∨ snd (Get s key) = Some ERR_KEY_NOT_EXIST).
Proof.
  split; [apply Set_error|].
  destruct (Get_error s key) as [He|He]; rewrite He.
  - split; [|by left]. apply bool_decide_eq_false_2. by intros [? _].
  - split; [|by right]. apply bool_decide_eq_false_2. by intros [_ ?].
Qed.

(** * Failure atomicity *)

(** C9. A call that returns an error leaves the current store, with the
    overlay and the count map of every layer of its chain, as it was;
    the error is ERR_KEY_NOT_EXIST from Get and Delete and
    ERR_NOT_TRANSACTION from Rollback and Commit, and no other call
    returns one. *)
Theorem failed_call_changes_nothing (s : Store) (o : Op) (e : error) :
  snd (exec s o) = Some e →
  next s o = s ∧
  match o with
  | OpGet _ | OpDelete _ => e = ERR_KEY_NOT_EXIST
  | OpRollback | OpCommit => e = ERR_NOT_TRANSACTION
  | OpBegin | OpSet _ _ | OpCount _ => False
  end.
Proof.
  unfold next. destruct o; cbn [exec].
  - done.
  - unfold Rollback. destruct (Parent s); simpl; [done|].
    intros [= <-]. done.
  - unfold Commit. destruct (Parent s); simpl; [done|].
    intros [= <-]. done.
  - destruct (Get_error s key) as [He|He].
    + destruct (Get s key) as [v err]. simpl in *. by subst err.
    + rewrite He. simpl. intros [= <-]. done.
  - rewrite Set_unfold. done.
  - destruct (Delete_cases s key) as [[-> _]|[-> _]]; simpl; [|done].
    intros [= <-]. done.
  - pose proof (Count_error s value). destruct (Count s value) as [c err].
    simpl in *. by subst err.
Qed.

Lemma failed_call_changes_nothing_witness :
  let s := run InitStore [OpSet "a" "foo"; OpBegin; OpSet "b" "bar"] in
  next s (OpDelete "c") = s ∧ next InitStore OpCommit = InitStore.
Proof.
  intros s. split.
  - apply (failed_call_changes_nothing s (OpDelete "c") ERR_KEY_NOT_EXIST).
    by vm_compute.
  - apply (failed_call_changes_nothing InitStore OpCommit
             ERR_NOT_TRANSACTION).
    reflexivity.
Defined.

(** * Get right after Set and Delete *)

Lemma handleGet_tombstone s key :
  Get s key = (EmptyString, None) → handleGet s key = ("NULL"%string, None).
Proof. unfold handleGet. by intros ->. Qed.

Lemma handleGet_missing s key :
  snd (Get s key) = Some ERR_KEY_NOT_EXIST →
  handleGet s key = ("NULL"%string, None).
Proof.
  unfold handleGet. destruct (Get s key) as [v err]. simpl. by intros ->.
Qed.

(** C4, as the code has it. In a store without open transaction, Get
    right after Set(key, v) with v not empty returns v; right after
    Set(key, empty string) or a Delete(key) that succeeds it returns the
    empty string and no error (the key stays recorded, as a tombstone);
    right after a Delete(key) that fails it fails with
    ERR_KEY_NOT_EXIST. In each of the last three cases the GET of the
    interpreter prints NULL. *)
Theorem Get_after_Set_or_Delete (s : Store) (key value : string) :
  Parent s = None →
  (value ≠ EmptyString → Get (fst (Set_ s key value)) key = (value, None)) ∧
  Get (fst (Set_ s key EmptyString)) key = (EmptyString, None) ∧
  (snd (Delete s key) = None →
   Get (fst (Delete s key)) key = (EmptyString, None)) ∧
  (snd (Delete s key) ≠ None →
   Get (fst (Delete s key)) key = (EmptyString, Some ERR_KEY_NOT_EXIST)) ∧
  handleGet (fst (Set_ s key EmptyString)) key = ("NULL"%string, None) ∧
  handleGet (fst (Delete s key)) key = ("NULL"%string, None).
Proof.
  intros _.
  assert (HS : ∀ v, Get (fst (Set_ s key v)) key = (v, None)).
  { intros v. rewrite Get_Set. by rewrite decide_True. }
  split; [by intros _|]. split; [done|].
  destruct (Delete_cases s key) as [[-> He]|[-> He]]; cbn [fst snd].
  - destruct (Get_error s key) as [He'|He']; [congruence|].
    repeat split; try done. by apply handleGet_tombstone.
    by apply handleGet_missing.
  - repeat split; try done. by apply handleGet_tombstone.
    by apply handleGet_tombstone.
Qed.

Lemma Get_after_Set_or_Delete_witness :
  let s := run InitStore [OpSet "a" "foo"; OpSet "b" "baz"] in
  Get (fst (Set_ s "a" "bar")) "a" = ("bar"%string, None) ∧
  Get (fst (Delete s "b")) "b" = (EmptyString, None) ∧
  Get (fst (Delete s "c")) "c" = (EmptyString, Some ERR_KEY_NOT_EXIST).
Proof.
  intros s.
  destruct (Get_after_Set_or_Delete s "a" "bar" eq_refl) as (H1 & _).
  destruct (Get_after_Set_or_Delete s "b" "bar" eq_refl) as (_ & _ & H2 & _).
  destruct (Get_after_Set_or_Delete s "c" "bar" eq_refl) as (_ & _ & _ & H3 & _).
  split; [apply H1; by vm_compute|].
  split; [apply H2; by vm_compute|apply H3; by vm_compute].
Defined.

(** C4, as the specification words it, fails: after a Delete that
    succeeds, and after Set(key, empty string), Get returns the empty
    string with a nil error instead of ERR_KEY_NOT_EXIST. *)
Lemma Get_after_Delete_is_not_an_error :
  let s := run InitStore [OpSet "a" "foo"] in
  Parent s = None ∧
  Delete s "a" = (fst (Delete s "a"), None) ∧
  Get (fst (Delete s "a")) "a" = (EmptyString, None) ∧
  snd (Get (fst (Delete s "a")) "a") ≠ Some ERR_KEY_NOT_EXIST ∧
  snd (Get (fst (Set_ s "a" EmptyString)) "a") ≠ Some ERR_KEY_NOT_EXIST.
Proof. by vm_compute. Qed.

(** * Idempotence *)

(** Deleting a key that no layer records fails both times. *)
Lemma Delete_missing_twice s key :
  snd (Get s key) = Some ERR_KEY_NOT_EXIST →
  Delete s key = (s, Some ERR_KEY_NOT_EXIST) ∧
  Delete (fst (Delete s key)) key = (s, Some ERR_KEY_NOT_EXIST).
Proof. intros He. by rewrite !Delete_missing. Qed.

Lemma leaves_holder s key w :
  leaves s key w = if decide (Get s key = (w, None)) then 1 else 0.
Proof.
  unfold leaves.
  destruct (Get_error s key) as [He|He].
  - destruct (Get s key) as [v err]. simpl in *. subst err.
    destruct (decide (v = w)) as [->|Hn].
    + by rewrite !decide_True.
    + rewrite !decide_False; [done|congruence|tauto].
  - rewrite He. simpl. by rewrite !decide_False by naive_solver.
Qed.

(** Setting a key twice to the same value, the empty string apart,
    leaves the count of the value as it was after the first call. *)
Lemma Set_same_value_twice s key value :
  int_ok s → value ≠ EmptyString →
  Count (fst (Set_ (fst (Set_ s key value)) key value)) value =
  Count (fst (Set_ s key value)) value.
Proof.
  intros Hok Hne. pose proof (int_ok_Set s key value Hok) as Hok1.
  rewrite (Count_pair (fst (Set_ (fst _) _ _))), Count_Set by done.
  rewrite leaves_holder, Get_Set. rewrite (decide_True _ _ (eq_refl key)).
  rewrite (decide_True _ _ (eq_refl (value, None))).
  unfold joins. rewrite decide_True by done.
  rewrite (Count_pair (fst (Set_ s key value))) at 2. f_equal.
  replace (fst (Count (fst (Set_ s key value)) value) - 1 + 1)
    with (fst (Count (fst (Set_ s key value)) value)) by lia.
  by apply wrap_id, Count_in_range.
Qed.

(** C8 at its failing input: the second Set of a key to the empty
    string moves the count of the empty string from 0 to -1, because
    Set decrements the count of the old value also when the old value
    is the empty string, which it never incremented. *)
Theorem Set_empty_twice_moves_Count :
  let s1 := fst (Set_ InitStore "a" EmptyString) in
  let s2 := fst (Set_ s1 "a" EmptyString) in
  Count s1 EmptyString = (0, None) ∧ Count s2 EmptyString = (-1, None).
Proof. by vm_compute. Qed.

(** * Commit below depth one *)

(** C2 at its failing input: with two transactions open, a key set in
    the outer one resolves to its value before Commit and is unknown
    afterwards, while its value is still counted: Commit copies the
    overlay of the current store alone, and folds the count deltas of
    every layer. *)
Theorem Commit_drops_outer_overlay :
  let s := run InitStore [OpBegin; OpSet "a" "foo"; OpBegin] in
  let s' := fst (Commit s) in
  depth s = 2%nat ∧ snd (Commit s) = None ∧
  Get s "a" = ("foo"%string, None) ∧
  Get s' "a" = (EmptyString, Some ERR_KEY_NOT_EXIST) ∧
  Count s "foo" = (1, None) ∧ Count s' "foo" = (1, None).
Proof. by vm_compute. Qed.

(** * Count *)

Lemma Count_unseen s value :
  (∀ l, l ∈ layers s → CountDiff l !! value = None) →
  Count s value = (0, None).
Proof.
  induction s as [kv cd|kv cd p IH] using Store_ind; intros H.
  - specialize (H _ (list_elem_of_here _ _)). simpl in *.
    unfold cnt_of. by rewrite H.
  - rewrite (Count_child _ p) by done. rewrite IH.
    + specialize (H _ (list_elem_of_here _ _)). simpl in *.
      unfold cnt_of. by rewrite H.
    + intros l Hl. apply H. by apply list_elem_of_further.
Qed.

(** The count of the empty string goes below zero without any
    transaction: the second Delete finds the tombstone of the first. *)
Example Count_of_empty_string_negative :
  let s := run InitStore [OpSet "a" "foo"; OpDelete "a"; OpDelete "a"] in
  outputs InitStore [OpSet "a" "foo"; OpDelete "a"; OpDelete "a"] =
    [(PNone, None); (PNone, None); (PNone, None)] ∧
  Count s EmptyString = (-1, None).
Proof. by vm_compute. Qed.

(** C3 at its failing input: a Commit with two transactions open keeps
    the key of the primary store and takes the decrement of the outer
    transaction, so that deleting the key afterwards drives the count
    of its value to -1. *)
Theorem Count_negative_after_deep_Commit :
  let s := run InitStore [OpSet "a" "foo"; OpBegin; OpDelete "a"; OpBegin;
                          OpCommit; OpDelete "a"] in
  Count s "foo" = (-1, None).
Proof. by vm_compute. Qed.

(** * Rollback undoes Begin *)

Lemma stays_open_depth base s ops : stays_open base s ops → (base < depth s)%nat.
Proof. destruct ops; by intros [? _]. Qed.

Lemma depth_Parent s p : Parent s = Some p → depth s = S (depth p).
Proof. destruct s as [kv cd q]; simpl. by intros ->. Qed.

Lemma depth_root s : Parent s = None → depth s = O.
Proof. destruct s as [kv cd q]; simpl. by intros ->. Qed.

Lemma depth_same_Parent s t : Parent s = Parent t → depth s = depth t.
Proof. destruct s as [? ? ?], t as [? ? ?]; simpl. by intros ->. Qed.

Lemma ancestor_same_Parent n s t :
  Parent s = Parent t → ancestor (S n) s = ancestor (S n) t.
Proof. simpl. by intros ->. Qed.

Lemma depth_Commit s : depth (fst (Commit s)) = O.
Proof.
  destruct (Parent s) as [p|] eqn:Hp.
  - by rewrite (Commit_nested s p).
  - rewrite Commit_root by done. by apply depth_root.
Qed.

Lemma Parent_Delete s key : Parent (fst (Delete s key)) = Parent s.
Proof.
  destruct (Delete_cases s key) as [[-> _]|[-> _]]; [done|].
  apply Parent_Set.
Qed.

Lemma ancestor_next base s o S0 :
  (base < depth s)%nat → (base < depth (next s o))%nat →
  ancestor (depth s - base) s = Some S0 →
  ancestor (depth (next s o) - base) (next s o) = Some S0.
Proof.
  intros Hlt Hlt' Hanc.
  assert (Hsame : ∀ t, Parent t = Parent s →
            ancestor (depth t - base) t = Some S0).
  { intros t Ht. rewrite (depth_same_Parent t s Ht).
    destruct (depth s - base)%nat as [|n] eqn:En; [lia|].
    by rewrite (ancestor_same_Parent n t s Ht). }
  unfold next in *. destruct o; cbn [exec] in *.
  - cbn [Begin fst NewStore depth] in *.
    replace (S (depth s) - base)%nat with (S (depth s - base)) by lia.
    done.
  - unfold Rollback in *. destruct (Parent s) as [p|] eqn:Hp; [|done].
    cbn [fst] in *. rewrite (depth_Parent s p Hp) in Hanc.
    replace (S (depth p) - base)%nat with (S (depth p - base)) in Hanc by lia.
    simpl in Hanc. by rewrite Hp in Hanc.
  - pose proof (depth_Commit s) as Hd. destruct (Commit s) as [s' e].
    simpl in *. lia.
  - by destruct (Get s key).
  - pose proof (Parent_Set s key value) as HP.
    destruct (Set_ s key value) as [s' e]. by apply Hsame.
  - pose proof (Parent_Delete s key) as HP.
    destruct (Delete s key) as [s' e]. by apply Hsame.
  - by destruct (Count s value).
Qed.

Lemma Rollback_run base S0 ops :
  ∀ s, ancestor (depth s - base) s = Some S0 →
       stays_open base s ops → Rollback (run s ops) = (S0, None).
Proof.
  induction ops as [|o ops IH]; intros s Hanc [Hlt Hopen].
  - cbn [run]. rewrite Hopen in Hanc.
    replace (S base - base)%nat with 1%nat in Hanc by lia.
    unfold Rollback. simpl in Hanc.
    destruct (Parent s) as [p|]; by simplify_eq.
  - cbn [run]. apply IH; [|done].
    apply ancestor_next; [done|by eapply stays_open_depth|done].
Qed.

Lemma depth_next s o :
  depth (next s o) =
  match o with
  | OpBegin => S (depth s)
  | OpRollback => pred (depth s)
  | OpCommit => O
  | _ => depth s
  end.
Proof.
  unfold next. destruct o; cbn [exec].
  - done.
  - unfold Rollback. destruct (Parent s) as [p|] eqn:Hp; cbn [fst].
    + by rewrite (depth_Parent s p).
    + by rewrite depth_root.
  - pose proof (depth_Commit s). by destruct (Commit s).
  - by destruct (Get s key).
  - pose proof (Parent_Set s key value) as HP.
    destruct (Set_ s key value). by apply depth_same_Parent.
  - pose proof (Parent_Delete s key) as HP.
    destruct (Delete s key). by apply depth_same_Parent.
  - by destruct (Count s value).
Qed.

(** [stays_open] holds of the runs that [nesting] describes, and of no
    other. *)
Lemma stays_open_nesting base ops :
  ∀ s, stays_open base s ops ↔
       (base < depth s)%nat ∧ nesting (depth s - base) ops.
Proof.
  induction ops as [|o ops IH]; intros s; cbn [stays_open].
  - simpl. split; intros [? ?]; split; lia.
  - rewrite IH, depth_next. destruct o; cbn [nesting]; try tauto.
    + split.
      * intros (H1 & _ & H3). split; [done|].
        by replace (S (depth s - base)) with (S (depth s) - base)%nat by lia.
      * intros (H1 & H3). split; [done|]. split; [lia|].
        by replace (S (depth s) - base)%nat with (S (depth s - base)) by lia.
    + split.
      * intros (H1 & H2 & H3). split; [done|]. split; [lia|].
        by replace (pred (depth s - base)) with (pred (depth s) - base)%nat
          by lia.
      * intros (H1 & H2 & H3). split; [done|]. split; [lia|].
        by replace (pred (depth s) - base)%nat with (pred (depth s - base))
          by lia.
    + split; [|by intros (? & [])]. intros (_ & Hlt & _). lia.
Qed.

Lemma nesting_plain ops : Forall plain ops → nesting 1 ops.
Proof.
  induction 1 as [|o ops Ho _ IH]; [done|]. by destruct o.
Qed.

(** A Commit between Begin and Rollback closes the transaction: the
    Rollback that follows has none to match and fails. *)
Example Commit_closes_the_transaction :
  let s := run (fst (Begin InitStore)) [OpSet "a" "foo"; OpCommit] in
  ¬ stays_open 0 (fst (Begin InitStore)) [OpSet "a" "foo"; OpCommit] ∧
  Rollback s = (s, Some ERR_NOT_TRANSACTION) ∧
  Get s "a" = ("foo"%string, None).
Proof.
  split; [|by vm_compute]. rewrite stays_open_nesting. by intros [_ []].
Qed.

(** C5, as the code has it. Rollback undoes Begin when no Commit
    comes between them: for every store S and every sequence of
    operations without Commit that runs between Begin and the Rollback
    matching it (every Rollback of the sequence closes a transaction
    begun in the sequence, and none of these is left open), Rollback
    succeeds and the current store is S again; every Get and every
    Count answers as it did in S. *)
Theorem Rollback_undoes_Begin (S0 : Store) (ops : list Op) :
  nesting 1 ops →
  let s' := fst (Rollback (run (fst (Begin S0)) ops)) in
  snd (Rollback (run (fst (Begin S0)) ops)) = None ∧
  s' = S0 ∧
  (∀ key, Get s' key = Get S0 key) ∧
  (∀ value, Count s' value = Count S0 value).
Proof.
  intros Hnest s'. subst s'.
  assert (Hopen : stays_open (depth S0) (fst (Begin S0)) ops).
  { apply stays_open_nesting. cbn [Begin fst NewStore depth].
    replace (S (depth S0) - depth S0)%nat with 1%nat by lia.
    split; [lia|done]. }
  rewrite (Rollback_run (depth S0) S0 ops (fst (Begin S0))); [done| |done].
  cbn [Begin fst NewStore depth].
  replace (S (depth S0) - depth S0)%nat with 1%nat by lia. done.
Qed.

Lemma Rollback_undoes_Begin_witness :
  let S0 := run InitStore [OpSet "a" "foo"; OpBegin; OpSet "b" "baz"] in
  let ops := [OpSet "a" "bar"; OpBegin; OpDelete "b"; OpCount "foo";
              OpRollback; OpDelete "a"; OpGet "a"; OpSet "c" "foo"] in
  fst (Rollback (run (fst (Begin S0)) ops)) = S0.
Proof.
  intros S0 ops.
  apply (Rollback_undoes_Begin S0 ops).
  vm_compute. repeat split; lia.
Defined.

(** C5, as the specification words it, fails when a Commit comes
    between Begin and Rollback: Commit makes the changes permanent and
    closes every open transaction, so that the Rollback fails with
    ERR_NOT_TRANSACTION and the store answers otherwise than before
    Begin; so with one transaction open, and so with a second one begun
    and committed inside the first. *)
Lemma Rollback_after_Commit_undoes_nothing :
  let S0 := InitStore in
  let r1 := Rollback (run (fst (Begin S0)) [OpSet "a" "foo"; OpCommit]) in
  let r2 := Rollback (run (fst (Begin S0))
                        [OpSet "a" "foo"; OpBegin; OpSet "b" "bar";
                         OpCommit]) in
  Get S0 "a" = (EmptyString, Some ERR_KEY_NOT_EXIST) ∧
  Count S0 "foo" = (0, None) ∧
  snd r1 = Some ERR_NOT_TRANSACTION ∧
  Get (fst r1) "a" = ("foo"%string, None) ∧
  Count (fst r1) "foo" = (1, None) ∧
  snd r2 = Some ERR_NOT_TRANSACTION ∧
  Get (fst r2) "b" = ("bar"%string, None) ∧
  Get S0 "b" = (EmptyString, Some ERR_KEY_NOT_EXIST) ∧
  Count (fst r2) "bar" = (1, None) ∧
  Count S0 "bar" = (0, None).
Proof. by vm_compute. Qed.

(** * Commit at depth one *)

Lemma same_answers_Set s t key value :
  int_ok s → int_ok t → same_answers s t →
  same_answers (fst (Set_ s key value)) (fst (Set_ t key value)).
Proof.
  intros Hs Ht [HG HC]. split.
  - intros k. by rewrite !Get_Set, HG.
  - intros w. rewrite (Count_pair (fst (Set_ s _ _))),
      (Count_pair (fst (Set_ t _ _))), !Count_Set by done.
    by rewrite !leaves_holder, HG, HC.
Qed.

Lemma same_answers_next s t o :
  plain o → int_ok s → int_ok t → same_answers s t →
  same_answers (next s o) (next t o) ∧
  Parent (next s o) = Parent s ∧ Parent (next t o) = Parent t ∧
  (snd (fst (exec s o)), snd (exec s o)) =
  (snd (fst (exec t o)), snd (exec t o)).
Proof.
  intros Hplain Hs Ht Hsame. pose proof Hsame as [HG HC].
  unfold next. destruct o; try done; cbn [exec].
  - rewrite HG. by destruct (Get t key).
  - rewrite !Set_unfold. repeat split; try done.
    + intros k. pose proof (Get_Set s key value k) as H1.
      pose proof (Get_Set t key value k) as H2.
      rewrite Set_unfold in H1, H2. simpl in *. by rewrite H1, H2, HG.
    + intros w.
      pose proof (same_answers_Set s t key value Hs Ht Hsame) as [_ H].
      specialize (H w). by rewrite !Set_unfold in H.
  - destruct (Delete_cases s key) as [[-> Es]|[-> Es]],
      (Delete_cases t key) as [[-> Et]|[-> Et]]; rewrite HG in Es;
      try congruence; cbn [fst snd]; [done|].
    split; [by apply same_answers_Set|]. by rewrite !Parent_Set.
  - rewrite HC. by destruct (Count t value).
Qed.

Lemma same_answers_run ops :
  ∀ s t, Forall plain ops → int_ok s → int_ok t → same_answers s t →
         same_answers (run s ops) (run t ops) ∧
         Parent (run s ops) = Parent s ∧ Parent (run t ops) = Parent t ∧
         outputs s ops = outputs t ops.
Proof.
  induction ops as [|o ops IH]; intros s t Hall Hs Ht Hsame; [done|].
  apply Forall_cons in Hall as [Ho Hall].
  destruct (same_answers_next s t o Ho Hs Ht Hsame) as (Hn & Ps & Pt & Ho').
  destruct (IH (next s o) (next t o) Hall (int_ok_next s o Hs)
              (int_ok_next t o Ht) Hn) as (Hr & Ps' & Pt' & Hout).
  cbn [run outputs]. rewrite Ps', Pt', Hout. by rewrite Ps, Pt, Ho'.
Qed.

(** C6. Commit at depth one refines the run without transaction: for
    every store without open transaction and every sequence of Set,
    Delete, Get and Count, the store left by Begin, the sequence and
    Commit answers every Get and every Count as the store left by the
    sequence alone; the calls of the sequence hand back the same
    results in both runs, Commit succeeds, and no transaction is open
    afterwards on either side. *)
Theorem Commit_depth1_refines_direct (s : Store) (ops : list Op) :
  Parent s = None → int_ok s → Forall plain ops →
  let inner := run (fst (Begin s)) ops in
  let nested := fst (Commit inner) in
  let direct := run s ops in
  snd (Commit inner) = None ∧
  (∀ key, Get nested key = Get direct key) ∧
  (∀ value, Count nested value = Count direct value) ∧
  outputs (fst (Begin s)) ops = outputs s ops ∧
  Parent nested = None ∧ Parent direct = None.
Proof.
  intros Hroot Hok Hall inner nested direct.
  assert (Hb : int_ok (fst (Begin s))).
  { split; [apply map_Forall_empty|done]. }
  assert (Hsame : same_answers (fst (Begin s)) s).
  { split; [apply Get_Begin|intros v; by apply Count_Begin]. }
  destruct (same_answers_run ops _ _ Hall Hb Hok Hsame)
    as ([HG HC] & Pi & Pd & Hout).
  fold inner direct in HG, HC, Pi, Pd. cbn [Begin fst NewStore Parent] in Pi.
  subst nested. rewrite (Commit_nested inner s Pi). cbn [snd].
  rewrite <- (Commit_nested inner s Pi).
  repeat split; try done.
  - intros key. by rewrite (Get_Commit_depth1 inner s).
  - intros value. rewrite (Count_Commit inner s); [done|done|].
    by apply int_ok_run.
  - by rewrite (Commit_nested inner s Pi).
  - by rewrite Pd.
Qed.

Lemma Commit_depth1_refines_direct_witness :
  let s := run InitStore [OpSet "a" "foo"; OpSet "b" "baz"] in
  let ops := [OpSet "a" "bar"; OpGet "a"; OpDelete "b"; OpCount "foo";
              OpSet "c" "bar"; OpDelete "d"] in
  Get (fst (Commit (run (fst (Begin s)) ops))) "b" = Get (run s ops) "b" ∧
  Count (fst (Commit (run (fst (Begin s)) ops))) "bar" =
  Count (run s ops) "bar".
Proof.
  intros s ops.
  assert (Hok : int_ok s) by (apply (bool_decide_unpack _); by vm_compute).
  assert (Hplain : Forall plain ops) by repeat constructor.
  destruct (Commit_depth1_refines_direct s ops eq_refl Hok Hplain)
    as (_ & HG & HC & _).
  split; [apply HG|apply HC].
Defined.

(** * Count against Get *)

Lemma Get_keys s key value : Get s key = (value, None) → key ∈ keys s.
Proof.
  induction s as [kv cd|kv cd p IH] using Store_ind; simpl;
    destruct (kv !! key) as [v|] eqn:E; intros H; try done.
  - apply elem_of_dom. eauto.
  - apply elem_of_union_l, elem_of_dom. eauto.
  - apply elem_of_union_r. auto.
Qed.

Lemma elem_of_holders s value key :
  key ∈ holders s value ↔ Get s key = (value, None).
Proof.
  unfold holders. rewrite elem_of_filter. split; [by intros [? _]|].
  intros H. split; [done|]. by eapply Get_keys.
Qed.

Lemma holders_ext s t value :
  (∀ key, Get s key = Get t key) → holders s value = holders t value.
Proof.
  intros H. apply set_eq. intros key. by rewrite !elem_of_holders, H.
Qed.

Lemma holders_Set s key value w :
  holders (fst (Set_ s key value)) w =
  if decide (value = w) then {[key]} ∪ holders s w
  else holders s w ∖ {[key]}.
Proof.
  apply set_eq. intros k. rewrite elem_of_holders, Get_Set.
  destruct (decide (value = w)) as [->|Hne].
  - rewrite elem_of_union, elem_of_singleton, elem_of_holders.
    destruct (decide (key = k)); naive_solver.
  - rewrite elem_of_difference, elem_of_singleton, elem_of_holders.
    destruct (decide (key = k)); naive_solver.
Qed.

Lemma size_holders_Set s key value w :
  w ≠ EmptyString →
  Z.of_nat (size (holders (fst (Set_ s key value)) w)) =
  Z.of_nat (size (holders s w)) - leaves s key w + joins value w.
Proof.
  intros Hw. rewrite holders_Set, leaves_holder. unfold joins.
  destruct (decide (Get s key = (w, None))) as [Hin|Hout].
  - apply elem_of_holders in Hin.
    destruct (decide (value = w)) as [->|Hne].
    + rewrite decide_True by done.
      replace ({[key]} ∪ holders s w) with (holders s w) by set_solver.
      lia.
    + rewrite decide_False by naive_solver.
      rewrite size_difference by set_solver. rewrite size_singleton.
      assert (size (holders s w) ≠ 0%nat); [|lia].
      apply size_non_empty_iff. set_solver.
  - rewrite <- elem_of_holders in Hout.
    destruct (decide (value = w)) as [->|Hne].
    + rewrite decide_True by done.
      rewrite size_union by set_solver. rewrite size_singleton. lia.
    + rewrite decide_False by naive_solver.
      replace (holders s w ∖ {[key]}) with (holders s w) by set_solver.
      lia.
Qed.

Lemma counts_match_ext s t :
  same_answers s t → counts_match s → counts_match t.
Proof.
  intros [HG HC] H w Hw.
  by rewrite <- HC, <- (holders_ext s t w HG), H.
Qed.

Lemma counts_match_Set s key value :
  int_ok s → counts_match s → counts_match (fst (Set_ s key value)).
Proof.
  intros Hok H w Hw.
  rewrite Count_Set, size_holders_Set, H by done.
  apply wrap_move.
Qed.

Lemma counts_match_Init : counts_match InitStore.
Proof. intros w _. by vm_compute. Qed.

Lemma layers_same_Parent s t :
  Parent s = Parent t → tail (layers s) = tail (layers t).
Proof.
  destruct s as [? ? [?|]], t as [? ? [?|]]; simpl; intros H; by simplify_eq.
Qed.

Lemma layers_head s : ∃ l, layers s = s :: l.
Proof. destruct s as [? ? [?|]]; simpl; eauto. Qed.

Lemma layers_child s p : Parent s = Some p → layers s = s :: layers p.
Proof. destruct s as [? ? ?]; simpl. by intros ->. Qed.

Lemma layers_root s : Parent s = None → layers s = [s].
Proof. destruct s as [? ? ?]; simpl. by intros ->. Qed.

Lemma consistent_head s : consistent s → counts_match s.
Proof.
  intros [_ H]. destruct (layers_head s) as [l El]. rewrite El in H.
  by apply Forall_cons in H as [? _].
Qed.

Lemma consistent_replace s t :
  Parent t = Parent s → int_ok t → counts_match t →
  consistent s → consistent t.
Proof.
  intros HP Hok Hm [_ H]. split; [done|].
  destruct (layers_head s) as [l El], (layers_head t) as [l' El'].
  pose proof (layers_same_Parent t s HP) as Ht. rewrite El, El' in Ht.
  simpl in Ht. subst l'. rewrite El'. rewrite El in H.
  apply Forall_cons in H as [_ H]. by apply Forall_cons.
Qed.

Lemma consistent_Set s key value :
  consistent s → consistent (fst (Set_ s key value)).
Proof.
  intros H. pose proof H as [Hok _].
  apply (consistent_replace s); [apply Parent_Set|by apply int_ok_Set| |done].
  apply counts_match_Set; [done|by apply consistent_head].
Qed.

Lemma consistent_next s o :
  (o = OpCommit → (depth s ≤ 1)%nat) →
  consistent s → consistent (next s o).
Proof.
  intros Hshallow H. pose proof H as [Hok Hl].
  unfold next. destruct o; cbn [exec].
  - cbn [Begin fst NewStore]. split; [by apply (int_ok_next s OpBegin)|].
    rewrite (layers_child _ s) by done. apply Forall_cons. split; [|done].
    apply (counts_match_ext s); [|by apply consistent_head].
    split; intros x; symmetry; [apply Get_Begin|by apply Count_Begin].
  - unfold Rollback. destruct (Parent s) as [p|] eqn:Hp; [|done].
    cbn [fst]. rewrite (layers_child s p Hp) in Hl.
    apply Forall_cons in Hl as [_ Hl]. split; [|done].
    destruct s as [kv cd q]. simpl in Hp. subst q. by destruct Hok.
  - destruct (Parent s) as [p|] eqn:Hp; [|by rewrite Commit_root].
    specialize (Hshallow eq_refl). rewrite (depth_Parent s p Hp) in Hshallow.
    assert (Hroot : Parent p = None).
    { destruct p as [? ? [q|]]; [simpl in Hshallow; lia|done]. }
    pose proof (int_ok_Commit s Hok) as Hok'.
    assert (Hm : counts_match (fst (Commit s))).
    { apply (counts_match_ext s); [|by apply consistent_head].
      split; intros x; symmetry;
        [by apply (Get_Commit_depth1 s p)|by apply (Count_Commit s p)]. }
    rewrite (Commit_nested s p Hp) in *. cbn [fst] in *.
    split; [done|]. rewrite layers_root by done. by apply Forall_singleton.
  - by destruct (Get s key).
  - pose proof (consistent_Set s key value H). by destruct (Set_ s key value).
  - destruct (Delete_cases s key) as [[-> _]|[-> _]]; [done|].
    by apply consistent_Set.
  - by destruct (Count s value).
Qed.

Lemma consistent_run ops :
  ∀ s, commits_shallow s ops → consistent s → consistent (run s ops).
Proof.
  induction ops as [|o ops IH]; intros s Hsh H; [done|].
  destruct Hsh as [Ho Hsh]. apply IH; [done|]. by apply consistent_next.
Qed.

Lemma consistent_Init : consistent InitStore.
Proof.
  split; [apply int_ok_Init|]. apply Forall_singleton, counts_match_Init.
Qed.

(** C1, as the code has it. In every store reached from the initial one
    by a run whose Commits are called with at most one transaction
    open, and for every value other than the empty string, the keys
    that Get resolves to the value form a finite set, and Count returns
    its size, as a Go int: the size itself whenever it is at most the
    largest int. *)
Theorem Count_matches_Get (ops : list Op) (value : string) :
  commits_shallow InitStore ops → value ≠ EmptyString →
  let s := run InitStore ops in
  (∀ key, key ∈ holders s value ↔ Get s key = (value, None)) ∧
  Count s value = (wrap (Z.of_nat (size (holders s value))), None) ∧
  (Z.of_nat (size (holders s value)) <= int_max →
   Count s value = (Z.of_nat (size (holders s value)), None)).
Proof.
  intros Hsh Hne s.
  pose proof (consistent_head s
                (consistent_run ops InitStore Hsh consistent_Init)) as Hm.
  split; [intros key; apply elem_of_holders|].
  rewrite (Count_pair s value), (Hm value Hne). split; [done|].
  intros Hle. rewrite wrap_id; [done|].
  split; [|done]. transitivity 0; [by vm_compute|lia].
Qed.

Lemma Count_matches_Get_witness :
  let s := run InitStore [OpSet "a" "foo"; OpSet "b" "foo"; OpBegin;
                          OpSet "c" "foo"; OpDelete "a"; OpCommit;
                          OpSet "d" "bar"] in
  Count s "foo" = (wrap (Z.of_nat (size (holders s "foo"))), None).
Proof.
  intros s.
  refine (proj1 (proj2 (Count_matches_Get
            [OpSet "a" "foo"; OpSet "b" "foo"; OpBegin; OpSet "c" "foo";
             OpDelete "a"; OpCommit; OpSet "d" "bar"] "foo" _ _))).
  - vm_compute. repeat split; intros; (lia || discriminate).
  - discriminate.
Defined.

(** C1, as the specification words it, fails for the empty string: a
    deleted key resolves to the empty string without error, and the
    empty string is never counted. *)
Lemma Count_ignores_tombstones :
  let s := run InitStore [OpSet "a" "foo"; OpDelete "a"] in
  Get s "a" = (EmptyString, None) ∧
  holders s EmptyString = {[ "a"%string ]} ∧
  size (holders s EmptyString) = 1%nat ∧
  Count s EmptyString = (0, None).
Proof. by vm_compute. Qed.


(** * Further properties of the store *)

(** ** The primary store *)

Lemma GetPrimaryStore_child s p :
  Parent s = Some p → GetPrimaryStore s = GetPrimaryStore p.
Proof. destruct s as [kv cd q]; simpl. by intros ->. Qed.

Lemma GetPrimaryStore_last s : last (layers s) = Some (GetPrimaryStore s).
Proof.
  induction s as [kv cd|kv cd p IH] using Store_ind; [done|].
  cbn [layers GetPrimaryStore]. rewrite <- IH.
  destruct (layers_head p) as [l ->]. done.
Qed.

(** X1. While a transaction is open, no call but Commit touches the
    primary store: after Begin, Rollback, Get, Set, Delete or Count on
    a store that has a parent, the store at the end of the chain of
    parents is the one it was. *)
Theorem primary_store_waits_for_Commit (s p : Store) (o : Op) :
  Parent s = Some p → o ≠ OpCommit →
  GetPrimaryStore (next s o) = GetPrimaryStore s ∧
  last (layers (next s o)) = last (layers s).
Proof.
  intros Hp Ho.
  assert (H : GetPrimaryStore (next s o) = GetPrimaryStore s);
    [|by rewrite !GetPrimaryStore_last, H].
  assert (Hsame : ∀ t, Parent t = Parent s →
            GetPrimaryStore t = GetPrimaryStore s).
  { intros t Ht. rewrite Hp in Ht.
    by rewrite (GetPrimaryStore_child t p), (GetPrimaryStore_child s p). }
  unfold next. destruct o; cbn [exec]; try done.
  - unfold Rollback. rewrite Hp. cbn [fst]. symmetry.
    by apply GetPrimaryStore_child.
  - by destruct (Get s key).
  - pose proof (Parent_Set s key value).
    destruct (Set_ s key value). by apply Hsame.
  - pose proof (Parent_Delete s key).
    destruct (Delete s key). by apply Hsame.
  - by destruct (Count s value).
Qed.

Lemma primary_store_waits_for_Commit_witness :
  let s := run InitStore [OpSet "a" "foo"; OpBegin; OpSet "b" "bar"] in
  GetPrimaryStore (next s (OpDelete "a")) = GetPrimaryStore s ∧
  GetPrimaryStore (next s OpRollback) = GetPrimaryStore s.
Proof.
  intros s. split.
  - apply (primary_store_waits_for_Commit s
             (run InitStore [OpSet "a" "foo"]) (OpDelete "a"));
      [by vm_compute|discriminate].
  - apply (primary_store_waits_for_Commit s
             (run InitStore [OpSet "a" "foo"]) OpRollback);
      [by vm_compute|discriminate].
Defined.

(** ** Commit at any depth *)

(** X2. Commit closes every open transaction at once: called with a
    transaction open it succeeds, whatever the depth, and leaves a
    store without parent, on which Commit and Rollback both fail with
    ERR_NOT_TRANSACTION. *)
Theorem Commit_closes_every_transaction (s p : Store) :
  Parent s = Some p →
  let s' := fst (Commit s) in
  snd (Commit s) = None ∧
  Parent s' = None ∧ depth s' = O ∧
  Commit s' = (s', Some ERR_NOT_TRANSACTION) ∧
  Rollback s' = (s', Some ERR_NOT_TRANSACTION).
Proof.
  intros Hp s'. subst s'. rewrite (Commit_nested s p Hp). cbn [fst snd].
  repeat split.
Qed.

Lemma Commit_closes_every_transaction_witness :
  let s := run InitStore [OpBegin; OpSet "a" "foo"; OpBegin; OpBegin;
                          OpSet "b" "bar"] in
  depth s = 3%nat ∧ depth (fst (Commit s)) = O ∧
  Rollback (fst (Commit s)) = (fst (Commit s), Some ERR_NOT_TRANSACTION).
Proof.
  intros s. split; [by vm_compute|].
  destruct (Commit_closes_every_transaction s
              (run InitStore [OpBegin; OpSet "a" "foo"; OpBegin]))
    as (_ & _ & Hd & _ & Hr); [by vm_compute|].
  by split.
Defined.

(** X3. Commit changes no count: at every depth, Count answers for
    every value after Commit what it answered before, the count deltas
    of all the layers being added up in the primary store. *)
Theorem Commit_keeps_every_Count (s p : Store) (value : string) :
  Parent s = Some p → int_ok s →
  Count (fst (Commit s)) value = Count s value.
Proof.
  intros Hp Hok. rewrite (Commit_nested s p Hp). cbn [fst].
  rewrite Count_root, (Count_pair s value) by done. f_equal.
  cbn [CountDiff]. unfold commitCountDiffs.
  by rewrite commit_from_Count, with_counts_same.
Qed.

Lemma Commit_keeps_every_Count_witness :
  let s := run InitStore [OpSet "a" "foo"; OpBegin; OpSet "b" "foo";
                          OpBegin; OpDelete "a"; OpSet "c" "foo"] in
  Count (fst (Commit s)) "foo" = Count s "foo".
Proof.
  intros s.
  apply (Commit_keeps_every_Count s
           (run InitStore [OpSet "a" "foo"; OpBegin; OpSet "b" "foo"]));
    [by vm_compute|].
  apply (bool_decide_unpack _). by vm_compute.
Defined.

(** X4. What Get answers after Commit, at every depth: a key recorded
    in the overlay of the committed store keeps the value recorded
    there (the empty string of a deleted key included), and every
    other key resolves as the primary store resolved it before. *)
Theorem Commit_writes_current_overlay (s p : Store) (key : string) :
  Parent s = Some p →
  Get (fst (Commit s)) key =
  match Kv s !! key with
  | Some value => (value, None)
  | None => Get (GetPrimaryStore s) key
  end.
Proof.
  intros Hp. rewrite (Commit_nested s p Hp). cbn [fst].
  pose proof (GetPrimaryStore_root s) as Hroot.
  destruct (Kv s !! key) as [value|] eqn:E.
  - apply Get_found. cbn [Kv]. by rewrite lookup_union, E, union_Some_l.
  - destruct (GetPrimaryStore s) as [kvr cdr q]. simpl in Hroot. subst q.
    cbn [Get Kv]. rewrite lookup_union, E, (left_id_L None union).
    done.
Qed.

Lemma Commit_writes_current_overlay_witness :
  let s := run InitStore [OpSet "a" "foo"; OpSet "b" "baz"; OpBegin;
                          OpSet "a" "bar"; OpDelete "b"] in
  Get (fst (Commit s)) "a" = ("bar"%string, None) ∧
  Get (fst (Commit s)) "b" = (EmptyString, None).
Proof.
  intros s.
  pose proof (Commit_writes_current_overlay s
                (run InitStore [OpSet "a" "foo"; OpSet "b" "baz"]))
    as H.
  split; rewrite H by (by vm_compute); by vm_compute.
Defined.

(** ** Set and Delete in any store *)

(** X5. Set is local, in every store, nested ones included: right
    after Set(key, value) Get(key) returns the value with no error, the
    empty string included; every other key resolves as before; and the
    parent, with all it holds, is the one it was. *)
Theorem Set_is_local (s : Store) (key value : string) :
  let s' := fst (Set_ s key value) in
  Get s' key = (value, None) ∧
  (∀ k, k ≠ key → Get s' k = Get s k) ∧
  Parent s' = Parent s ∧
  depth s' = depth s.
Proof.
  intros s'. subst s'. split; [|split; [|split]].
  - rewrite Get_Set. by rewrite decide_True.
  - intros k Hk. rewrite Get_Set. by rewrite decide_False.
  - apply Parent_Set.
  - apply depth_same_Parent, Parent_Set.
Qed.

(** X6. Set moves one unit of count: for every value w, Count(w) after
    Set(key, value) is Count(w) before, less one if the key resolved to
    w, plus one if w is the new value and not the empty string (in
    64-bit arithmetic). The counts of all other values stay. *)
Theorem Set_moves_one_count (s : Store) (key value w : string) :
  int_ok s →
  Count (fst (Set_ s key value)) w =
  (wrap (fst (Count s w)
         - (if decide (Get s key = (w, None)) then 1 else 0)
         + (if decide (value ≠ EmptyString ∧ value = w) then 1 else 0)),
   None).
Proof.
  intros Hok. rewrite (Count_pair (fst (Set_ s key value)) w).
  rewrite Count_Set by done. by rewrite leaves_holder.
Qed.

Lemma Set_moves_one_count_witness :
  let s := run InitStore [OpSet "a" "foo"; OpSet "b" "foo"; OpBegin] in
  Count (fst (Set_ s "a" "bar")) "foo" = (1, None) ∧
  Count (fst (Set_ s "a" "bar")) "bar" = (1, None) ∧
  Count (fst (Set_ s "a" "bar")) "baz" = (0, None).
Proof.
  intros s.
  assert (Hok : int_ok s) by (apply (bool_decide_unpack _); by vm_compute).
  rewrite !(Set_moves_one_count s "a" "bar" _ Hok). by vm_compute.
Defined.

(** X7. A Delete that finds the key, a deleted one included, returns
    no error and acts as Set(key, empty string): Get(key) returns the
    empty string afterwards, the other keys resolve as before, the
    count of the value the key resolved to drops by one and no other
    count moves. *)
Theorem Delete_found_effect (s : Store) (key : string) :
  int_ok s → snd (Get s key) = None →
  let s' := fst (Delete s key) in
  snd (Delete s key) = None ∧
  Get s' key = (EmptyString, None) ∧
  (∀ k, k ≠ key → Get s' k = Get s k) ∧
  (∀ w, Count s' w =
        (wrap (fst (Count s w)
               - (if decide (fst (Get s key) = w) then 1 else 0)), None)).
Proof.
  intros Hok Hfound s'. subst s'. rewrite (Delete_found s key Hfound).
  cbn [fst snd]. split; [done|]. split; [|split].
  - rewrite Get_Set. by rewrite decide_True.
  - intros k Hk. rewrite Get_Set. by rewrite decide_False.
  - intros w. rewrite (Count_pair (fst (Set_ s key EmptyString)) w).
    rewrite Count_Set, leaves_holder by done. unfold joins.
    rewrite (decide_False (P := EmptyString ≠ EmptyString ∧ _)) by tauto.
    rewrite Z.add_0_r. do 3 f_equal.
    destruct (Get s key) as [old err]. simpl in *. subst err.
    destruct (decide (old = w)) as [->|Hne].
    + by rewrite decide_True.
    + rewrite decide_False; [done|congruence].
Qed.

Lemma Delete_found_effect_witness :
  let s := run InitStore [OpSet "a" "foo"; OpSet "b" "foo"; OpBegin] in
  Count (fst (Delete s "a")) "foo" = (1, None) ∧
  Get (fst (Delete s "a")) "b" = ("foo"%string, None).
Proof.
  intros s.
  assert (Hok : int_ok s) by (apply (bool_decide_unpack _); by vm_compute).
  destruct (Delete_found_effect s "a" Hok eq_refl) as (_ & _ & HG & HC).
  split; [by rewrite HC|by rewrite HG].
Defined.

(** X8. Set is idempotent on the whole store for a value other than
    the empty string: a second Set(key, value) right after the first
    returns the store the first one left, overlay, count map and parent
    alike. *)
Theorem Set_twice_same_store (s : Store) (key value : string) :
  value ≠ EmptyString →
  Set_ (fst (Set_ s key value)) key value = Set_ s key value.
Proof.
  intros Hne.
  rewrite (Set_unfold (fst (Set_ s key value))).
  rewrite (Set_unfold s key value) at 3. f_equal.
  unfold Set_counts at 1. rewrite Get_Set, decide_True by done.
  rewrite Set_unfold. cbn [fst snd Kv CountDiff Parent].
  rewrite !bool_decide_eq_true_2 by done.
  rewrite insert_insert_eq. f_equal.
  set (cd1 := Set_counts s key value).
  assert (Hc : ∃ c, cd1 !! value = Some c ∧ in_range c).
  { subst cd1. unfold Set_counts. rewrite bool_decide_eq_true_2 by done.
    unfold cnt_add at 1. rewrite lookup_insert_eq.
    eexists. split; [done|apply wrap_in_range]. }
  destruct Hc as (c & Hc & Hr).
  unfold cnt_add at 1. rewrite cnt_of_add, decide_True by done.
  unfold cnt_add. rewrite insert_insert_eq.
  unfold cnt_of. rewrite Hc. cbn [default]. change (id c) with c.
  rewrite wrap_add_l. replace (c + -1 + 1) with c by lia.
  rewrite wrap_id by done. f_equal. by apply insert_id.
Qed.

Lemma Set_twice_same_store_witness :
  let s := run InitStore [OpSet "a" "foo"; OpBegin; OpSet "b" "bar"] in
  Set_ (fst (Set_ s "a" "bar")) "a" "bar" = Set_ s "a" "bar".
Proof.
  intros s. apply (Set_twice_same_store s "a" "bar"). discriminate.
Defined.

(** ** Count *)

(** X9. Count returns no error in any store (the branch that hands on
    the error of the parent, with -1, is never taken), and a value that
    the count map of no layer records counts 0. *)
Theorem Count_never_fails (s : Store) (value : string) :
  snd (Count s value) = None ∧
  ((∀ l, l ∈ layers s → CountDiff l !! value = None) →
   Count s value = (0, None)).
Proof.
  split; [apply Count_error|].
  induction s as [kv cd|kv cd p IH] using Store_ind; intros H.
  - specialize (H _ (list_elem_of_here _ _)). simpl in *.
    unfold cnt_of. by rewrite H.
  - rewrite (Count_child _ p) by done. rewrite IH.
    + specialize (H _ (list_elem_of_here _ _)). simpl in *.
      unfold cnt_of. by rewrite H.
    + intros l Hl. apply H. by apply list_elem_of_further.
Qed.

(** ** Counters against the length of the run *)

Lemma in_range_abs z : Z.abs z <= int_max → in_range z.
Proof.
  unfold in_range, int_min, int_max, int_bits.
  change (2 ^ (64 - 1)) with 9223372036854775808. lia.
Qed.

Lemma weight_unfold s value :
  weight s value =
  Z.abs (cnt_of (CountDiff s) value) +
  match Parent s with None => 0 | Some p => weight p value end.
Proof. destruct s as [kv cd [p|]]; simpl; lia. Qed.

Lemma weight_nonneg s value : 0 <= weight s value.
Proof.
  induction s as [kv cd|kv cd p IH] using Store_ind; simpl; lia.
Qed.

Lemma abs_Count_weight s value :
  weight s value <= int_max →
  Z.abs (fst (Count s value)) <= weight s value.
Proof.
  induction s as [kv cd|kv cd p IH] using Store_ind; intros Hw.
  - simpl. lia.
  - rewrite (Count_child _ p) by done. cbn [fst CountDiff].
    cbn [weight] in *. pose proof (weight_nonneg p value).
    assert (Hp : Z.abs (fst (Count p value)) <= weight p value)
      by (apply IH; lia).
    rewrite wrap_id by (apply in_range_abs; lia). lia.
Qed.

Lemma weight_same_Parent s t value d :
  Parent t = Parent s →
  Z.abs (cnt_of (CountDiff t) value)
    <= Z.abs (cnt_of (CountDiff s) value) + d →
  weight t value <= weight s value + d.
Proof. intros HP Hc. rewrite (weight_unfold t), (weight_unfold s), HP. lia. Qed.

Lemma weight_Set s key value w :
  int_ok s → weight s w + 1 <= int_max →
  weight (fst (Set_ s key value)) w <= weight s w + 1.
Proof.
  intros Hok Hw. apply weight_same_Parent; [apply Parent_Set|].
  rewrite Set_unfold. cbn [fst CountDiff].
  assert (Hcd : map_Forall (fun _ z => in_range z) (CountDiff s))
    by (by destruct s as [kv cd q], Hok).
  rewrite cnt_of_Set_counts by done.
  assert (Hl : 0 <= leaves s key w <= 1)
    by (unfold leaves; case_decide; lia).
  assert (Hj : 0 <= joins value w <= 1)
    by (unfold joins; case_decide; lia).
  pose proof (weight_unfold s w) as Hu.
  assert (0 <= match Parent s with None => 0 | Some p => weight p w end)
    by (destruct (Parent s); [apply weight_nonneg|lia]).
  rewrite wrap_id by (apply in_range_abs; lia). lia.
Qed.

Lemma weight_next s o value :
  int_ok s → weight s value + 1 <= int_max →
  weight (next s o) value <= weight s value + 1.
Proof.
  intros Hok Hw. pose proof (weight_nonneg s value) as H0.
  unfold next. destruct o; cbn [exec].
  - cbn [Begin fst NewStore weight]. rewrite cnt_of_empty. lia.
  - unfold Rollback. destruct (Parent s) as [p|] eqn:Hp; cbn [fst]; [|lia].
    rewrite (weight_unfold s), Hp. lia.
  - destruct (Parent s) as [p|] eqn:Hp.
    + rewrite (Commit_nested s p Hp). cbn [fst weight].
      unfold commitCountDiffs.
      rewrite commit_from_Count, with_counts_same by done.
      pose proof (abs_Count_weight s value). lia.
    + rewrite Commit_root by done. cbn [fst]. lia.
  - destruct (Get s key). cbn [fst]. lia.
  - pose proof (weight_Set s key value0 value Hok Hw).
    by destruct (Set_ s key value0).
  - destruct (Delete_cases s key) as [[-> _]|[-> _]]; cbn [fst]; [lia|].
    by apply weight_Set.
  - destruct (Count s value0). cbn [fst]. lia.
Qed.

Lemma weight_run ops value :
  ∀ s, int_ok s →
       weight s value + Z.of_nat (length ops) <= int_max →
       weight (run s ops) value <= weight s value + Z.of_nat (length ops).
Proof.
  induction ops as [|o ops IH]; intros s Hok Hw; cbn [run length] in *.
  - lia.
  - pose proof (weight_next s o value Hok) as Hn.
    pose proof (IH (next s o) (int_ok_next s o Hok)) as Hr. lia.
Qed.

(** X10. Counters stay within the number of calls: after a run of n
    calls from the initial store, n at most the largest int, Count of
    any value lies between -n and n, and so does the counter of the
    value in every layer of the chain. No addition in such a run wraps
    around. *)
Theorem Count_bounded_by_calls (ops : list Op) (value : string) :
  Z.of_nat (length ops) <= int_max →
  let s := run InitStore ops in
  Z.abs (fst (Count s value)) <= Z.of_nat (length ops) ∧
  (∀ l, l ∈ layers s →
        Z.abs (cnt_of (CountDiff l) value) <= Z.of_nat (length ops)).
Proof.
  intros Hn s.
  assert (Hw : weight s value <= Z.of_nat (length ops)).
  { pose proof (weight_run ops value InitStore int_ok_Init) as H.
    change (weight InitStore value) with (Z.abs (cnt_of ∅ value)) in H.
    rewrite cnt_of_empty in H. apply H. simpl. lia. }
  split.
  - pose proof (abs_Count_weight s value). lia.
  - clearbody s. clear Hn. revert Hw. generalize (Z.of_nat (length ops)).
    induction s as [kv cd|kv cd p IH] using Store_ind; intros n Hw l Hl.
    + apply list_elem_of_singleton in Hl as ->. simpl in *. lia.
    + cbn [layers weight] in *. pose proof (weight_nonneg p value).
      apply elem_of_cons in Hl as [->|Hl]; [simpl; lia|].
      apply (IH n); [lia|done].
Qed.

Lemma Count_bounded_by_calls_witness :
  let ops := [OpSet "a" "foo"; OpBegin; OpSet "b" "foo"; OpBegin;
              OpDelete "a"; OpCommit; OpDelete "a"] in
  Z.abs (fst (Count (run InitStore ops) "foo")) <= 7.
Proof.
  intros ops.
  refine (proj1 (Count_bounded_by_calls ops "foo" _)). by vm_compute.
Defined.

(** * The line interpreter *)

(** The example tests of the test file pass, each on the store that
    END left, and so do the statements of TestInvalidStatements. *)
Example TestExamples :
  let run_test := @Main.exampleTestHelper Main.ascii_strings InitStore in
  run_test Main.Example0 = Main.Pass InitStore ∧
  run_test Main.Example1 = Main.Pass InitStore ∧
  run_test Main.Example2 = Main.Pass InitStore ∧
  run_test Main.Example3 = Main.Pass InitStore ∧
  run_test Main.Example4 = Main.Pass InitStore.
Proof. by vm_compute. Qed.

Example TestInvalidStatements :
  let err stmt :=
    Main.error_of
      (@Main.processStatement Main.ascii_strings true InitStore stmt) in
  err "        "%string = Some Main.ERR_STMT_EMPTY ∧
  err "BLAH a foo"%string = Some Main.ERR_INVALID_COMMAND_KEYWORD ∧
  err " a"%string = Some Main.ERR_INVALID_COMMAND_KEYWORD ∧
  err "GET a a  "%string = Some Main.ERR_INVALID_ARGS_NUM ∧
  err "SET a foo bar"%string = Some Main.ERR_INVALID_ARGS_NUM.
Proof. by vm_compute. Qed.

(** ** Splitting a statement *)

Lemma Split_not_nil s : Main.Split s ≠ [].
Proof.
  destruct s as [|c rest]; simpl; [done|].
  destruct (Ascii.eqb c " "); [done|]. by destruct (Main.Split rest).
Qed.

Lemma append_cons c t u : String c (t +:+ u) = String c t +:+ u.
Proof. reflexivity. Qed.

Lemma append_not_empty t c u : t +:+ String c u ≠ EmptyString.
Proof. by destruct t. Qed.

(** The last piece is empty only when the string is empty or ends in a
    space. *)
Lemma Split_last_empty s :
  last (Main.Split s) = Some EmptyString →
  s = EmptyString ∨ ∃ t, s = t +:+ " ".
Proof.
  induction s as [|c rest IH]; [by left|]. intros Hl. right.
  pose proof (Split_not_nil rest) as Hne. simpl in Hl.
  destruct (Ascii.eqb_spec c " ") as [->|Hc].
  - destruct (Main.Split rest) as [|piece pieces] eqn:E; [done|].
    destruct IH as [->|[t ->]]; [done|by exists EmptyString|].
    exists (String " " t). apply append_cons.
  - destruct (Main.Split rest) as [|piece pieces] eqn:E; [done|].
    destruct pieces as [|piece' pieces]; [by simplify_eq/=|].
    destruct IH as [->|[t ->]]; [done|by simplify_eq/=|].
    exists (String c t). apply append_cons.
Qed.

(** ** The table of commands *)

Lemma funcTable_names tm : (Main.funcTable tm).*1 = Main.commands.
Proof. reflexivity. Qed.

Lemma commands_NoDup : NoDup Main.commands.
Proof. apply (bool_decide_unpack _). by vm_compute. Qed.

Lemma funcMap_lookup tm cmd h :
  Main.funcMap tm !! cmd = Some h ↔ (cmd, h) ∈ Main.funcTable tm.
Proof.
  unfold Main.funcMap. split.
  - apply elem_of_list_to_map_2.
  - apply elem_of_list_to_map_1. rewrite funcTable_names.
    apply commands_NoDup.
Qed.

Lemma funcMap_unknown tm cmd :
  Main.funcMap tm !! cmd = None ↔ cmd ∉ Main.commands.
Proof.
  unfold Main.funcMap. rewrite <- (funcTable_names tm).
  symmetry. apply not_elem_of_list_to_map.
Qed.

Lemma handleGet_error s key : snd (handleGet s key) = None.
Proof.
  unfold handleGet. destruct (Get_error s key) as [He|He].
  - destruct (Get s key) as [val err]. simpl in He. subst err.
    by case_bool_decide.
  - rewrite He. rewrite bool_decide_eq_true_2; [done|by left].
Qed.

(** What a handler of the table does when it is called with the number
    of arguments the table gives: it does not panic, it exits for END
    outside test mode alone, and an error it returns comes from the
    store and leaves the store and the output as they were. *)
Lemma handler_called tm cmd h args s :
  (cmd, h) ∈ Main.funcTable tm → length args = Main.NumArgs h →
  match Main.Fn h args s with
  | Main.Returned s' out err =>
      (cmd = "END"%string → tm = true) ∧
      ∀ e, err = Some e →
           s' = s ∧ out = EmptyString ∧ ∃ e0, e = Main.StoreError e0
  | Main.Exited => cmd = "END"%string ∧ tm = false
  | Main.Panicked => False
  end.
Proof.
  unfold Main.funcTable. intros Hin Hlen.
  repeat (apply elem_of_cons in Hin as [Hin|Hin];
          [injection Hin as -> ->; cbn [Main.NumArgs Main.Fn] in *|]);
    [..|by apply elem_of_nil in Hin].
  - destruct args as [|key [|value [|? ?]]]; try done.
    unfold Main.handleSet. cbn. rewrite Set_unfold. by split.
  - destruct args as [|key [|? ?]]; try done.
    unfold Main.handleGet. cbn.
    pose proof (handleGet_error s key) as He.
    destruct (handleGet s key) as [val err]. simpl in He. subst err.
    by split.
  - destruct args as [|key [|? ?]]; try done.
    unfold Main.handleDelete. cbn.
    destruct (Delete_cases s key) as [[-> _]|[-> _]]; (split; [done|]).
    + intros e [= <-]. eauto.
    + done.
  - destruct args as [|val [|? ?]]; try done.
    unfold Main.handleCount. cbn. rewrite (Count_pair s val). by split.
  - unfold Main.handleBegin. cbn. by split.
  - unfold Main.handleRollback, Rollback.
    destruct (Parent s); (split; [done|]); [done|].
    intros e [= <-]. eauto.
  - unfold Main.handleCommit, Commit.
    destruct (Parent s); (split; [done|]); [done|].
    intros e [= <-]. eauto.
  - unfold Main.handleEnd. destruct tm; simpl; by split.
Qed.

(** ** One statement *)

Section Statement.

Context `{Main.GoStrings}.

(** The ways through [processStatement]. *)
Lemma processStatement_cases tm s stmt :
  (Main.TrimSpace stmt = EmptyString ∧
   Main.processStatement tm s stmt =
   Main.Returned s EmptyString (Some Main.ERR_STMT_EMPTY)) ∨
  (Main.TrimSpace stmt ≠ EmptyString ∧
   ∃ word args,
     Main.Split (Main.TrimSpace stmt) = word :: args ∧
     match Main.funcMap tm !! Main.ToUpper word with
     | None =>
         Main.processStatement tm s stmt =
         Main.Returned s EmptyString (Some Main.ERR_INVALID_COMMAND_KEYWORD)
     | Some h =>
         (length args ≠ Main.NumArgs h ∧
          Main.processStatement tm s stmt =
          Main.Returned s EmptyString (Some Main.ERR_INVALID_ARGS_NUM)) ∨
         (length args = Main.NumArgs h ∧
          Main.processStatement tm s stmt = Main.Fn h args s)
     end).
Proof.
  unfold Main.processStatement, Main.validateStatement,
    Main.extractCommandArgs.
  destruct (decide (Main.TrimSpace stmt = EmptyString)) as [He|He];
    [by left|right]. split; [done|].
  pose proof (Split_not_nil (Main.TrimSpace stmt)) as Hne.
  destruct (Main.Split (Main.TrimSpace stmt)) as [|word args]; [done|].
  exists word, args. split; [done|].
  destruct (Main.funcMap tm !! Main.ToUpper word) as [h|]; [|done].
  destruct (decide (length args ≠ Main.NumArgs h)) as [Hn|Hn]; [by left|].
  right. split; [|done]. by destruct (decide (length args = Main.NumArgs h)).
Qed.

Lemma END_handler tm h :
  Main.funcMap tm !! "END"%string = Some h →
  h = {| Main.Fn := Main.handleEnd tm; Main.NumArgs := 0 |}.
Proof.
  intros Hh.
  assert (Main.funcMap tm !! "END"%string =
          Some {| Main.Fn := Main.handleEnd tm; Main.NumArgs := 0 |}) as He.
  { apply funcMap_lookup. unfold Main.funcTable.
    repeat first [apply list_elem_of_here|apply list_elem_of_further]. }
  congruence.
Qed.

Lemma processStatement_Exited tm s stmt :
  Main.processStatement tm s stmt = Main.Exited ↔
  tm = false ∧ Main.is_end stmt.
Proof.
  unfold Main.is_end.
  destruct (processStatement_cases tm s stmt)
    as [[He ->]|(Hne & word & args & HS & Hcase)].
  { split; [done|]. by intros (_ & ? & _). }
  destruct (Main.funcMap tm !! Main.ToUpper word) as [h|] eqn:Hh.
  - destruct Hcase as [[Hlen ->]|[Hlen ->]].
    + split; [done|]. intros (-> & _ & w & Hw & Hend).
      rewrite HS in Hw. injection Hw as -> ->. rewrite Hend in Hh.
      apply END_handler in Hh as ->. done.
    + pose proof (handler_called tm _ h args s
                    (proj1 (funcMap_lookup _ _ _) Hh) Hlen) as Hc.
      split.
      * intros Hex. rewrite Hex in Hc. destruct Hc as [Hend ->].
        split; [done|]. split; [done|]. rewrite Hend in Hh.
        apply END_handler in Hh as ->. simpl in Hlen.
        destruct args; [|done]. eauto.
      * intros (-> & _ & w & Hw & Hend).
        rewrite HS in Hw. injection Hw as <- ->. rewrite Hend in Hh.
        by apply END_handler in Hh as ->.
  - rewrite Hcase. split; [done|]. intros (_ & _ & w & Hw & Hend).
    rewrite HS in Hw. injection Hw as <- _. rewrite Hend in Hh.
    apply funcMap_unknown in Hh. destruct Hh. unfold Main.commands.
    repeat first [apply list_elem_of_here|apply list_elem_of_further].
Qed.

Lemma processStatement_not_Panicked tm s stmt :
  Main.processStatement tm s stmt ≠ Main.Panicked.
Proof.
  destruct (processStatement_cases tm s stmt)
    as [[He ->]|(Hne & word & args & HS & Hcase)]; [done|].
  destruct (Main.funcMap tm !! Main.ToUpper word) as [h|] eqn:Hh.
  - destruct Hcase as [[Hlen ->]|[Hlen ->]]; [done|].
    pose proof (handler_called tm _ h args s
                  (proj1 (funcMap_lookup _ _ _) Hh) Hlen) as Hc.
    intros Hp. by rewrite Hp in Hc.
  - by rewrite Hcase.
Qed.

Lemma processStatement_error tm s stmt s' out e :
  Main.processStatement tm s stmt = Main.Returned s' out (Some e) →
  s' = s ∧ out = EmptyString.
Proof.
  destruct (processStatement_cases tm s stmt)
    as [[He ->]|(Hne & word & args & HS & Hcase)];
    [by intros [= <- <- _]|].
  destruct (Main.funcMap tm !! Main.ToUpper word) as [h|] eqn:Hh.
  - destruct Hcase as [[Hlen ->]|[Hlen ->]]; [by intros [= <- <- _]|].
    pose proof (handler_called tm _ h args s
                  (proj1 (funcMap_lookup _ _ _) Hh) Hlen) as Hc.
    intros Hr. rewrite Hr in Hc. destruct Hc as [_ Hc].
    destruct (Hc e eq_refl) as (? & ? & _). done.
  - rewrite Hcase. by intros [= <- <- _].
Qed.

(** X11. A statement never makes the interpreter panic: every handler
    is called with as many arguments as it indexes. The interpreter
    exits on the command END without argument, outside test mode, and
    on nothing else. *)
Theorem statement_never_panics (tm : bool) (s : Store) (stmt : string) :
  Main.processStatement tm s stmt ≠ Main.Panicked ∧
  (Main.processStatement tm s stmt = Main.Exited ↔
   tm = false ∧ Main.is_end stmt).
Proof.
  split; [apply processStatement_not_Panicked|apply processStatement_Exited].
Qed.

(** X12. A statement that returns an error leaves the current store
    as it was and has the empty output, so that one turn of the loop
    prints at most one line: the error, or the output, or, for SET,
    DELETE, BEGIN, ROLLBACK, COMMIT and blank statements, nothing. *)
Theorem statement_error_changes_nothing (tm : bool) (s : Store)
    (stmt : string) (s' : Store) (out : string)
    (err : option Main.stmt_error) :
  Main.processStatement tm s stmt = Main.Returned s' out err →
  (err ≠ None → s' = s ∧ out = EmptyString) ∧
  (length (Main.echo out err) ≤ 1)%nat.
Proof.
  intros Hr.
  assert (He : err ≠ None → s' = s ∧ out = EmptyString).
  { destruct err as [e|]; [|done]. intros _.
    by apply (processStatement_error tm s stmt s' out e). }
  split; [done|]. unfold Main.echo.
  destruct (decide (err = Some Main.ERR_STMT_EMPTY)); [simpl; lia|].
  destruct err as [e|].
  - destruct He as [_ ->]; [done|]. by rewrite decide_False by tauto.
  - case_decide; simpl; lia.
Qed.

(** X13. The three rejections: the error is ERR_STMT_EMPTY exactly for
    the statements that TrimSpace empties; for the others it is
    ERR_INVALID_COMMAND_KEYWORD exactly when the first word, in upper
    case, is none of the eight commands, and ERR_INVALID_ARGS_NUM
    exactly when it is one of them and the number of words after it is
    not the number of arguments of the command. *)
Theorem statement_rejections (tm : bool) (s : Store) (stmt : string) :
  let r := Main.processStatement tm s stmt in
  (Main.error_of r = Some Main.ERR_STMT_EMPTY ↔
   Main.TrimSpace stmt = EmptyString) ∧
  (∀ word args,
     Main.TrimSpace stmt ≠ EmptyString →
     Main.Split (Main.TrimSpace stmt) = word :: args →
     (Main.error_of r = Some Main.ERR_INVALID_COMMAND_KEYWORD ↔
      Main.ToUpper word ∉ Main.commands) ∧
     (Main.error_of r = Some Main.ERR_INVALID_ARGS_NUM ↔
      ∃ h, Main.funcMap tm !! Main.ToUpper word = Some h ∧
           length args ≠ Main.NumArgs h)).
Proof.
  intros r. subst r.
  assert (Hstore : ∀ h args e,
    (Main.ToUpper <$> head (Main.Split (Main.TrimSpace stmt))) ≫=
      (fun cmd => Main.funcMap tm !! cmd) = Some h →
    length args = Main.NumArgs h →
    Main.error_of (Main.Fn h args s) = Some e → ∃ e0, e = Main.StoreError e0).
  { intros h args e Hh Hlen He.
    destruct (head (Main.Split (Main.TrimSpace stmt))) as [w|]; [|done].
    simpl in Hh.
    pose proof (handler_called tm _ h args s
                  (proj1 (funcMap_lookup _ _ _) Hh) Hlen) as Hc.
    destruct (Main.Fn h args s) as [s' out err| |]; try done.
    simpl in He. subst err. destruct Hc as [_ Hc].
    by destruct (Hc e eq_refl) as (_ & _ & ?). }
  destruct (processStatement_cases tm s stmt)
    as [[He ->]|(Hne & word & args & HS & Hcase)].
  { split; [done|]. by intros word args Hne. }
  rewrite HS in Hstore. simpl in Hstore.
  destruct (Main.funcMap tm !! Main.ToUpper word) as [h|] eqn:Hh.
  - assert (Hin : ¬ (Main.ToUpper word ∉ Main.commands)).
    { rewrite <- (funcMap_unknown tm). congruence. }
    destruct Hcase as [[Hlen ->]|[Hlen ->]]; simpl.
    + split; [done|]. intros w a _ Hw. rewrite HS in Hw.
      injection Hw as <- <-. split; [done|]. split; [eauto|done].
    + split.
      * split; [|done]. intros He.
        by destruct (Hstore h args _ eq_refl Hlen He).
      * intros w a _ Hw. rewrite HS in Hw. injection Hw as <- <-.
        split; split; try done.
        -- intros He. by destruct (Hstore h args _ eq_refl Hlen He).
        -- intros He. by destruct (Hstore h args _ eq_refl Hlen He).
        -- intros (h' & Hh' & Hlen'). rewrite Hh in Hh'. by simplify_eq.
  - rewrite Hcase. simpl. split; [done|].
    intros w a _ Hw. rewrite HS in Hw. injection Hw as <- <-.
    rewrite <- (funcMap_unknown tm). split; [done|].
    split; [done|]. intros (h' & Hh' & _). congruence.
Qed.

End Statement.

Lemma statement_error_changes_nothing_witness :
  let s := run InitStore [OpSet "a" "foo"; OpBegin] in
  ∃ e,
    @Main.processStatement Main.ascii_strings true s " delete b "
      = Main.Returned s EmptyString (Some e) ∧
    (length (Main.echo EmptyString (Some e)) ≤ 1)%nat.
Proof.
  intros s. exists (Main.StoreError ERR_KEY_NOT_EXIST).
  assert (Hr : @Main.processStatement Main.ascii_strings true s " delete b "
               = Main.Returned s EmptyString
                   (Some (Main.StoreError ERR_KEY_NOT_EXIST)))
    by (by vm_compute).
  split; [done|].
  apply (@statement_error_changes_nothing Main.ascii_strings true s
           " delete b " s EmptyString _ Hr).
Defined.

(** ** GET *)

(** X14. GET returns no error and never the empty output: it prints
    NULL for a key that Get does not find and for a key that resolves
    to the empty string, and the value the key resolves to otherwise. *)
Theorem GET_prints_value_or_NULL (s : Store) (key : string) :
  ∃ out,
    Main.handleGet [key] s = Main.Returned s out None ∧
    out ≠ EmptyString ∧
    (snd (Get s key) ≠ None ∨ fst (Get s key) = EmptyString →
     out = "NULL"%string) ∧
    (snd (Get s key) = None → fst (Get s key) ≠ EmptyString →
     out = fst (Get s key)).
Proof.
  unfold Main.handleGet. cbn [lookup list_lookup].
  pose proof (handleGet_error s key) as He. unfold handleGet in *.
  destruct (Get_error s key) as [Hg|Hg].
  - destruct (Get s key) as [val err]. simpl in Hg. subst err.
    case_bool_decide as Hb; simpl in *.
    + destruct Hb as [?| ->]; [done|]. exists "NULL"%string.
      repeat split; try done.
    + exists val. repeat split; try done.
      * intros ->. apply Hb. by right.
      * intros [?| ->]; [done|]. destruct Hb. by right.
  - rewrite Hg. rewrite bool_decide_eq_true_2 by by left. simpl.
    exists "NULL"%string. repeat split; try done.
Qed.

(** ** Words of a statement *)

Lemma trim_right_no_space s t : Main.trim_right s ≠ t +:+ " ".
Proof.
  revert t. induction s as [|c rest IH]; intros t; simpl.
  - by destruct t.
  - destruct (Main.trim_right rest) as [|c' kept] eqn:E.
    + destruct (Ascii.is_space c) eqn:Hc; [by destruct t|].
      destruct t as [|c1 t]; [by intros [= ->]|].
      intros [= _ Ht]. by destruct t.
    + destruct t as [|c1 t]; [done|].
      intros [= _ Ht]. by apply (IH t).
Qed.

Section Words.

Context `{Main.GoStrings}.

(** X15. No statement hands an empty last argument to a handler,
    given that TrimSpace leaves no space at the end: SET never stores
    the empty string and COUNT never asks for it, so that the empty
    values of the store all come from DELETE. *)
Theorem last_argument_not_empty (tm : bool) (s : Store) (stmt : string)
    (word : string) (args : list string) :
  (∀ x t, Main.TrimSpace x ≠ t +:+ " ") →
  Main.TrimSpace stmt ≠ EmptyString →
  Main.Split (Main.TrimSpace stmt) = word :: args →
  last args ≠ Some EmptyString ∧
  (∀ key value, args = [key; value] → Main.ToUpper word = "SET"%string →
     value ≠ EmptyString ∧
     Main.processStatement tm s stmt =
     Main.Returned (fst (Set_ s key value)) EmptyString None).
Proof.
  intros Htrim Hne HS.
  assert (Hlast : last args ≠ Some EmptyString).
  { intros Hl.
    assert (last (Main.Split (Main.TrimSpace stmt)) = Some EmptyString) as Hl'.
    { rewrite HS. by destruct args. }
    apply Split_last_empty in Hl' as [?|[t Ht]]; [done|].
    by apply (Htrim stmt t). }
  split; [done|]. intros key value -> Hset. split.
  - intros ->. by apply Hlast.
  - destruct (processStatement_cases tm s stmt)
      as [[He _]|(_ & w & a & HS' & Hcase)]; [done|].
    rewrite HS in HS'. injection HS' as <- <-. rewrite Hset in Hcase.
    assert (Main.funcMap tm !! "SET"%string =
            Some {| Main.Fn := Main.handleSet; Main.NumArgs := 2 |}) as Hh.
    { apply funcMap_lookup. apply list_elem_of_here. }
    rewrite Hh in Hcase. destruct Hcase as [[? _]|[_ ->]]; [done|].
    cbn. by rewrite Set_unfold.
Qed.




(** A line too long for the scanner, after two statements: the error
    is printed on every later turn and the store is the one the
    statements left. *)
Example loop_after_scanner_error :
  @Main.session Main.ascii_strings false InitStore
    [Main.ScanText "SET a foo"; Main.ScanText "GET a";
     Main.ScanError "bufio.Scanner: token too long";
     Main.ScanError "bufio.Scanner: token too long"] =
  Main.Waiting (run InitStore [OpSet "a" "foo"])
    [Main.STDIN_PROMPT; Main.STDIN_PROMPT; Main.Println "foo";
     Main.STDIN_PROMPT; Main.Println "bufio.Scanner: token too long";
     Main.STDIN_PROMPT; Main.Println "bufio.Scanner: token too long"].
Proof. by vm_compute. Qed.

(** X17. Each of the seven commands runs its operation of the store:
    a statement made of the command and of the number of arguments it
    takes leaves the store that the operation leaves and returns its
    error, but for GET, which turns the missing key into the output
    NULL; the output is the value for GET, the count in decimal for
    COUNT, and empty otherwise. *)
Theorem statement_runs_operation (tm : bool) (s : Store) (stmt : string)
    (word : string) (args : list string) (o : Op) :
  Main.TrimSpace stmt ≠ EmptyString →
  Main.Split (Main.TrimSpace stmt) = word :: args →
  Main.op_of (Main.ToUpper word) args = Some o →
  Main.processStatement tm s stmt =
  Main.Returned (next s o)
    (match o with
     | OpGet key => fst (handleGet s key)
     | OpCount value => Main.Sprintf_d (fst (Count s value))
     | _ => EmptyString
     end)
    (match o with
     | OpGet _ => None
     | _ => Main.of_store (snd (exec s o))
     end).
Proof.
  intros Hne HS Hop.
  destruct (processStatement_cases tm s stmt)
    as [[He _]|(_ & w & a & HS' & Hcase)]; [done|].
  rewrite HS in HS'. injection HS' as <- <-.
  assert (Hlook : ∀ h,
            (Main.ToUpper word, h) ∈ Main.funcTable tm →
            length args = Main.NumArgs h →
            Main.processStatement tm s stmt = Main.Fn h args s).
  { intros h Hin Hlen. apply funcMap_lookup in Hin.
    rewrite Hin in Hcase. by destruct Hcase as [[? _]|[_ ?]]. }
  unfold Main.op_of in Hop. unfold next.
  destruct args as [|a [|b [|? ?]]]; repeat case_decide; simplify_eq;
    cbn [exec];
    match goal with
    | Hc : Main.ToUpper word = _ |- _ => rewrite Hc in Hlook
    end;
    (erewrite Hlook;
       [|unfold Main.funcTable;
         repeat first [apply list_elem_of_here|apply list_elem_of_further]
        |done]);
    cbn [Main.Fn].
  - done.
  - unfold Main.handleRollback. by destruct (Rollback s).
  - unfold Main.handleCommit. by destruct (Commit s).
  - cbn. pose proof (handleGet_error s a) as He.
    destruct (handleGet s a) as [val err]. simpl in He. subst err.
    by destruct (Get s a).
  - cbn. by destruct (Delete s a).
  - cbn. by destruct (Count s a).
  - cbn. by destruct (Set_ s a b).
Qed.

End Words.

Lemma last_argument_not_empty_witness :
  let s := run InitStore [OpBegin] in
  @Main.processStatement Main.ascii_strings true s "  set a foo  " =
  Main.Returned (fst (Set_ s "a" "foo")) EmptyString None.
Proof.
  intros s.
  refine (proj2 (proj2 (@last_argument_not_empty Main.ascii_strings true s
            "  set a foo  " "set" ["a"; "foo"]%string _ _ _)
          "a" "foo" eq_refl eq_refl)).
  - intros x t. apply trim_right_no_space.
  - by vm_compute.
  - by vm_compute.
Defined.

Lemma statement_runs_operation_witness :
  let s := run InitStore [OpSet "a" "foo"; OpBegin; OpSet "b" "foo"] in
  @Main.processStatement Main.ascii_strings true s "count foo" =
  Main.Returned s "2" None.
Proof.
  intros s.
  rewrite (@statement_runs_operation Main.ascii_strings true s "count foo"
             "count" ["foo"%string] (OpCount "foo"));
    by vm_compute.
Defined.

(** ** Statements and the agreement of Count with Get *)

Lemma handler_store tm cmd h args s s' out err :
  (cmd, h) ∈ Main.funcTable tm → length args = Main.NumArgs h →
  Main.Fn h args s = Main.Returned s' out err →
  s' = InitStore ∨
  ∃ o, s' = next s o ∧ (o = OpCommit → cmd = "COMMIT"%string ∧ args = []).
Proof.
  unfold Main.funcTable, next. intros Hin Hlen.
  repeat (apply elem_of_cons in Hin as [Hin|Hin];
          [injection Hin as -> ->; cbn [Main.NumArgs Main.Fn] in *|]);
    [..|by apply elem_of_nil in Hin].
  - destruct args as [|key [|value [|? ?]]]; try done.
    unfold Main.handleSet. cbn. intros Hr. right. exists (OpSet key value).
    cbn [exec]. destruct (Set_ s key value). by simplify_eq.
  - destruct args as [|key [|? ?]]; try done.
    unfold Main.handleGet. cbn. intros Hr. right. exists (OpGet key).
    cbn [exec]. destruct (handleGet s key), (Get s key). by simplify_eq.
  - destruct args as [|key [|? ?]]; try done.
    unfold Main.handleDelete. cbn. intros Hr. right. exists (OpDelete key).
    cbn [exec]. destruct (Delete s key). by simplify_eq.
  - destruct args as [|val [|? ?]]; try done.
    unfold Main.handleCount. cbn. intros Hr. right. exists (OpCount val).
    cbn [exec]. destruct (Count s val). by simplify_eq.
  - unfold Main.handleBegin. cbn. intros Hr. right. exists OpBegin.
    by simplify_eq.
  - unfold Main.handleRollback. intros Hr. right. exists OpRollback.
    cbn [exec]. destruct (Rollback s). by simplify_eq.
  - unfold Main.handleCommit. intros Hr. right. exists OpCommit.
    cbn [exec]. destruct (Commit s). simplify_eq. split; [done|].
    intros _. split; [done|]. by destruct args.
  - unfold Main.handleEnd. destruct tm; simpl; [|done].
    intros Hr. left. by simplify_eq.
Qed.

Section Agreement.

Context `{Main.GoStrings}.

(** X18. Every statement but a COMMIT with two or more transactions
    open keeps Count in agreement with Get: if, in the current store
    and in each of its ancestors, Count of every value other than the
    empty string is the number of keys that resolve to it, the same
    holds after the statement, END included. *)
Theorem statement_keeps_agreement (tm : bool) (s : Store) (stmt : string)
    (s' : Store) (out : string) (err : option Main.stmt_error) :
  consistent s →
  (∀ word, Main.Split (Main.TrimSpace stmt) = [word] →
           Main.ToUpper word = "COMMIT"%string → (depth s ≤ 1)%nat) →
  Main.processStatement tm s stmt = Main.Returned s' out err →
  consistent s' ∧
  ∀ value, value ≠ EmptyString →
    Count s' value = (wrap (Z.of_nat (size (holders s' value))), None).
Proof.
  intros Hs Hcommit Hr.
  assert (Hs' : consistent s').
  { destruct (processStatement_cases tm s stmt)
      as [[He Hp]|(Hne & word & args & HS & Hcase)].
    { rewrite Hp in Hr. by simplify_eq. }
    destruct (Main.funcMap tm !! Main.ToUpper word) as [h|] eqn:Hh.
    - destruct Hcase as [[Hlen Hp]|[Hlen Hp]]; rewrite Hp in Hr;
        [by simplify_eq|].
      apply funcMap_lookup in Hh.
      destruct (handler_store tm _ h args s s' out err Hh Hlen Hr)
        as [->|(o & -> & Ho)]; [apply consistent_Init|].
      apply consistent_next; [|done].
      intros Hc. destruct (Ho Hc) as [Hw ->]. by apply (Hcommit word).
    - rewrite Hcase in Hr. by simplify_eq. }
  split; [done|]. intros value Hne.
  rewrite (Count_pair s' value). f_equal.
  by apply (consistent_head s' Hs').
Qed.

End Agreement.

Lemma statement_keeps_agreement_witness :
  let s := run InitStore [OpSet "a" "foo"; OpBegin; OpSet "b" "foo"] in
  ∃ s', @Main.processStatement Main.ascii_strings true s "COMMIT" =
        Main.Returned s' EmptyString None ∧
        Count s' "foo" = (wrap (Z.of_nat (size (holders s' "foo"))), None).
Proof.
  intros s. exists (fst (Commit s)).
  assert (Hr : @Main.processStatement Main.ascii_strings true s "COMMIT" =
               Main.Returned (fst (Commit s)) EmptyString None)
    by (by vm_compute).
  split; [done|].
  refine (proj2 (@statement_keeps_agreement Main.ascii_strings true s
                   "COMMIT" _ _ _ _ _ Hr) "foo" _).
  - apply consistent_run; [|apply consistent_Init].
    vm_compute. repeat split; intros; (lia || discriminate).
  - intros _ _ _. vm_compute. lia.
  - discriminate.
Defined.

(** The pieces of [Split], joined by spaces, give the string back. *)
Lemma Split_concat s : String.concat " " (Main.Split s) = s.
Proof.
  induction s as [|c rest IH]; [done|]. simpl.
  pose proof (Split_not_nil rest) as Hne.
  destruct (Ascii.eqb_spec c " ") as [->|Hc];
    destruct (Main.Split rest) as [|piece pieces]; try done;
    rewrite <- IH; by destruct pieces.
Qed.

(** * Keys and transactions *)

(** X19. Begin changes no answer: right after Begin every Get and
    every Count returns what it returned before, one more transaction
    is open, and Rollback gives back the store Begin was called on. *)
Theorem Begin_changes_no_answer (s : Store) :
  int_ok s →
  let s' := fst (Begin s) in
  snd (Begin s) = None ∧
  (∀ key, Get s' key = Get s key) ∧
  (∀ value, Count s' value = Count s value) ∧
  depth s' = S (depth s) ∧
  Rollback s' = (s, None).
Proof.
  intros Hok s'. subst s'. split; [done|]. split; [|split; [|done]].
  - intros key. apply Get_Begin.
  - intros value. by apply Count_Begin.
Qed.

Lemma Begin_changes_no_answer_witness :
  let s := run InitStore [OpSet "a" "foo"; OpBegin; OpDelete "a"] in
  Count (fst (Begin s)) "foo" = Count s "foo" ∧
  Get (fst (Begin s)) "a" = Get s "a".
Proof.
  intros s.
  assert (Hok : int_ok s) by (apply (bool_decide_unpack _); by vm_compute).
  destruct (Begin_changes_no_answer s Hok) as (_ & HG & HC & _).
  split; [apply HC|apply HG].
Defined.

Lemma found_next s o key :
  plain o → snd (Get s key) = None → snd (Get (next s o) key) = None.
Proof.
  intros Hplain Hfound. unfold next. destruct o; try done; cbn [exec].
  - by destruct (Get s key0).
  - pose proof (Get_Set s key0 value key) as HG.
    destruct (Set_ s key0 value). cbn [fst] in *. rewrite HG.
    by case_decide.
  - destruct (Delete_cases s key0) as [[-> _]|[-> _]]; cbn [fst]; [done|].
    rewrite Get_Set. by case_decide.
  - by destruct (Count s value).
Qed.

(** X20. Set, Delete, Get and Count never make a key unknown: a key
    that Get finds is still found after any run of these calls, Delete
    leaving the empty string in its place; so a Delete of the same key
    succeeds again. *)
Theorem found_key_stays_found (s : Store) (ops : list Op) (key : string) :
  Forall plain ops → snd (Get s key) = None →
  snd (Get (run s ops) key) = None ∧
  snd (Delete (run s ops) key) = None.
Proof.
  intros Hall Hfound.
  assert (H : snd (Get (run s ops) key) = None).
  { revert s Hfound. induction Hall as [|o ops Ho _ IH]; intros s Hfound;
      [done|].
    cbn [run]. apply IH. by apply found_next. }
  split; [done|]. by rewrite Delete_found.
Qed.

Lemma found_key_stays_found_witness :
  let s := run InitStore [OpSet "a" "foo"; OpBegin] in
  snd (Delete (run s [OpDelete "a"; OpCount "foo"; OpDelete "a"]) "a") = None.
Proof.
  intros s.
  refine (proj2 (found_key_stays_found s
            [OpDelete "a"; OpCount "foo"; OpDelete "a"] "a" _ _)).
  - repeat constructor.
  - by vm_compute.
Defined.
